(** * Deterministic event and jet seeds (columnflow/production/cms/seeds.py)

    A shallow embedding of the three producers [deterministic_event_seeds],
    [deterministic_jet_seeds] and [deterministic_seeds], of the helpers
    installed by their setup functions ([create_seed], [apply_field]) and of
    the library operations they call (awkward arrays, numpy unsigned 64-bit
    arithmetic, [hashlib.sha256]), followed by the properties of the seed
    derivation. *)

From Stdlib Require Import ZArith List String Ascii DecimalString Lia.
From stdpp Require Import gmap strings list fin_maps.

Local Open Scope Z_scope.

(** ** SHA-256 ([hashlib.sha256]), after FIPS 180-4, on 32-bit words in [Z] *)

Module SHA256.

Definition w32 (x : Z) : Z := x mod 2 ^ 32.

Definition add32 (x y : Z) : Z := w32 (x + y).

Definition rotr (n x : Z) : Z :=
  Z.lor (Z.shiftr x n) (w32 (Z.shiftl x (32 - n))).

Definition not32 (x : Z) : Z := Z.lxor x (2 ^ 32 - 1).

Definition Ch (x y z : Z) : Z :=
  Z.lxor (Z.land x y) (Z.land (not32 x) z).

Definition Maj (x y z : Z) : Z :=
  Z.lxor (Z.lxor (Z.land x y) (Z.land x z)) (Z.land y z).

Definition big_sigma0 (x : Z) : Z :=
  Z.lxor (Z.lxor (rotr 2 x) (rotr 13 x)) (rotr 22 x).

Definition big_sigma1 (x : Z) : Z :=
  Z.lxor (Z.lxor (rotr 6 x) (rotr 11 x)) (rotr 25 x).

Definition small_sigma0 (x : Z) : Z :=
  Z.lxor (Z.lxor (rotr 7 x) (rotr 18 x)) (Z.shiftr x 3).

Definition small_sigma1 (x : Z) : Z :=
  Z.lxor (Z.lxor (rotr 17 x) (rotr 19 x)) (Z.shiftr x 10).

(** Round constants: the leading 32 fractional bits of the cube roots of
    the first sixty-four primes. *)
Definition round_constants : list Z :=
  [ 1116352408; 1899447441; 3049323471; 3921009573; 961987163; 1508970993;
    2453635748; 2870763221; 3624381080; 310598401; 607225278; 1426881987;
    1925078388; 2162078206; 2614888103; 3248222580; 3835390401; 4022224774;
    264347078; 604807628; 770255983; 1249150122; 1555081692; 1996064986;
    2554220882; 2821834349; 2952996808; 3210313671; 3336571891; 3584528711;
    113926993; 338241895; 666307205; 773529912; 1294757372; 1396182291;
    1695183700; 1986661051; 2177026350; 2456956037; 2730485921; 2820302411;
    3259730800; 3345764771; 3516065817; 3600352804; 4094571909; 275423344;
    430227734; 506948616; 659060556; 883997877; 958139571; 1322822218;
    1537002063; 1747873779; 1955562222; 2024104815; 2227730452; 2361852424;
    2428436474; 2756734187; 3204031479; 3329325298 ].

(** The eight chaining words. *)
Record chain := Chain {
  ha : Z; hb : Z; hc : Z; hd : Z; he : Z; hf : Z; hg : Z; hh : Z
}.

(** Initial chaining value: fractional bits of the square roots of the
    first eight primes. *)
Definition initial_chain : chain :=
  Chain 1779033703 3144134277 1013904242 2773480762
        1359893119 2600822924 528734635 1541459225.

(** One of the sixty-four rounds; [kw] is the round constant plus the
    schedule word. *)
Definition round (s : chain) (kw : Z) : chain :=
  let t1 := add32 (add32 (add32 (hh s) (big_sigma1 (he s)))
                         (Ch (he s) (hf s) (hg s))) kw in
  let t2 := add32 (big_sigma0 (ha s)) (Maj (ha s) (hb s) (hc s)) in
  Chain (add32 t1 t2) (ha s) (hb s) (hc s) (add32 (hd s) t1) (he s) (hf s) (hg s).

(** Message schedule, kept newest word first while it is extended. *)
Definition next_word (rw : list Z) : Z :=
  add32 (add32 (add32 (small_sigma1 (nth 1 rw 0)) (nth 6 rw 0))
               (small_sigma0 (nth 14 rw 0))) (nth 15 rw 0).

Fixpoint extend (n : nat) (rw : list Z) : list Z :=
  match n with
  | O => rw
  | S n' => extend n' (next_word rw :: rw)
  end.

Definition schedule (block : list Z) : list Z :=
  rev (extend 48 (rev block)).

Definition compress (s : chain) (block : list Z) : chain :=
  let kws := zip_with add32 round_constants (schedule block) in
  let r := fold_left round kws s in
  Chain (add32 (ha s) (ha r)) (add32 (hb s) (hb r)) (add32 (hc s) (hc r))
        (add32 (hd s) (hd r)) (add32 (he s) (he r)) (add32 (hf s) (hf r))
        (add32 (hg s) (hg r)) (add32 (hh s) (hh r)).

(** Big-endian bytes of [x], [n] of them. *)
Fixpoint be_bytes (n : nat) (x : Z) : list Z :=
  match n with
  | O => []
  | S n' => Z.shiftr x (8 * Z.of_nat n') mod 256 :: be_bytes n' x
  end.

Definition pad (msg : list Z) : list Z :=
  let len := Z.of_nat (length msg) in
  msg ++ [128] ++ repeat 0 (Z.to_nat ((55 - len) mod 64)) ++ be_bytes 8 (8 * len).

(** Cut a list into pieces of [n] elements; [fuel] bounds the number of
    pieces and is taken as the length of the list. *)
Fixpoint pieces {A} (fuel n : nat) (l : list A) : list (list A) :=
  match fuel with
  | O => []
  | S fuel' =>
      match l with
      | [] => []
      | _ => take n l :: pieces fuel' n (drop n l)
      end
  end.

Definition be_word (bs : list Z) : Z :=
  fold_left (fun acc b => 256 * acc + b) bs 0.

Definition blocks (msg : list Z) : list (list Z) :=
  let padded := pad msg in
  let words := map be_word (pieces (length padded) 4 padded) in
  pieces (length words) 16 words.

Definition digest (msg : list Z) : chain :=
  fold_left compress (blocks msg) initial_chain.

Definition hex_digit (d : Z) : ascii :=
  nth (Z.to_nat d) (list_ascii_of_string "0123456789abcdef") "0"%char.

Definition hex_word (x : Z) : list ascii :=
  map (fun k => hex_digit (Z.shiftr x (4 * Z.of_nat k) mod 16)) (rev (seq 0 8)).

(** [hashlib.sha256(data).hexdigest()]: sixty-four lowercase hex digits. *)
Definition hexdigest (msg : list Z) : list ascii :=
  let r := digest msg in
  concat (map hex_word [ha r; hb r; hc r; hd r; he r; hf r; hg r; hh r]).

End SHA256.

Definition bytes_of_text (s : string) : list Z :=
  map (fun c => Z.of_N (N_of_ascii c)) (list_ascii_of_string s).

(** ** Errors raised by the Python code *)

Inductive error :=
| AttributeError (field : string)   (* [events.x] on a missing field *)
| FieldNotFoundError (field : string) (* a route that the array lacks *)
| IndexError                        (* index outside an array *)
| ValueError                        (* [int] on a text that is no number *)
| OverflowError                     (* Python int outside the target dtype *)
| AxisError.                        (* [axis] deeper than the array *)

Inductive result (A : Type) :=
| Ok (a : A)
| Raise (e : error).
Arguments Ok {A} a.
Arguments Raise {A} e.

#[global] Instance result_ret : MRet result := fun A a => Ok a.
#[global] Instance result_bind : MBind result := fun A B f m =>
  match m with Ok a => f a | Raise e => Raise e end.
#[global] Instance result_fmap : FMap result := fun A B f m =>
  match m with Ok a => Ok (f a) | Raise e => Raise e end.

(** Elementwise application of a fallible function, as [np.vectorize]. *)
Fixpoint traverse {A B} (f : A -> result B) (l : list A) : result (list B) :=
  match l with
  | [] => Ok []
  | x :: l' => y ← f x; ys ← traverse f l'; Ok (y :: ys)
  end.

(** ** Python text and slicing *)

(** [str(val)] for a Python int. *)
Definition str (val : Z) : string := NilZero.string_of_int (Z.to_int val).

(** Index normalisation of a slice bound (CPython's [PySlice_AdjustIndices]). *)
Definition adjust_index (len step i : Z) : Z :=
  if i <? 0 then
    if i + len <? 0 then (if step <? 0 then -1 else 0) else i + len
  else if len <=? i then (if step <? 0 then len - 1 else len)
  else i.

Definition slice_start (len step : Z) (start : option Z) : Z :=
  match start with
  | Some i => adjust_index len step i
  | None => if step <? 0 then len - 1 else 0
  end.

Definition slice_stop (len step : Z) (stop : option Z) : Z :=
  match stop with
  | Some i => adjust_index len step i
  | None => if step <? 0 then -1 else len
  end.

Definition slice_length (start stop step : Z) : Z :=
  if step <? 0 then
    if stop <? start then (start - stop - 1) / (- step) + 1 else 0
  else
    if start <? stop then (stop - start - 1) / step + 1 else 0.

(** [s[start:stop:step]]; an omitted bound is [None]. *)
Definition py_slice {A} (d : A) (s : list A) (start stop : option Z) (step : Z) : list A :=
  let len := Z.of_nat (length s) in
  let b := slice_start len step start in
  let e := slice_stop len step stop in
  map (fun k => nth (Z.to_nat (b + Z.of_nat k * step)) s d)
      (seq 0 (Z.to_nat (slice_length b e step))).

(** Value of one base-16 digit, either case. *)
Definition hex_value (c : ascii) : option Z :=
  let n := Z.of_N (N_of_ascii c) in
  if (48 <=? n) && (n <=? 57) then Some (n - 48)
  else if (97 <=? n) && (n <=? 102) then Some (n - 87)
  else if (65 <=? n) && (n <=? 70) then Some (n - 55)
  else None.

Fixpoint int_digits (acc : Z) (s : list ascii) : option Z :=
  match s with
  | [] => Some acc
  | c :: s' =>
      match hex_value c with
      | Some v => int_digits (16 * acc + v) s'
      | None => None
      end
  end.

(** [int(s, base=16)] on a text of hex digits; the empty text and any other
    character raise [ValueError]. *)
Definition int_base16 (s : list ascii) : result Z :=
  match s with
  | [] => Raise ValueError
  | _ => match int_digits 0 s with Some v => Ok v | None => Raise ValueError end
  end.

(** ** [create_seed] (defined in [deterministic_event_seeds_setup]) *)

Definition create_seed (val : Z) (n_hex : Z) : result Z :=
  int_base16
    (py_slice "0"%char (SHA256.hexdigest (bytes_of_text (str val)))
              None (Some (- (n_hex + 1))) (-1)).

(** The digest mixer as the specification words it: decimal text, SHA-256,
    lowercase hex, reversed, first [hex_chars] characters, base-16 value. *)
Definition digest_to_u64 (value : N) (hex_chars : nat) : result Z :=
  let text := NilZero.string_of_uint (N.to_uint value) in
  let hex := SHA256.hexdigest (bytes_of_text text) in
  int_base16 (take hex_chars (reverse hex)).

(** ** Unsigned 64-bit arithmetic ([np.uint64]) *)

Definition u64 (x : Z) : Z := x mod 2 ^ 64.
Definition wadd (x y : Z) : Z := u64 (x + y).
Definition wmul (x y : Z) : Z := u64 (x * y).

(** The vectorised [self.create_seed]: [np.vectorize(create_seed,
    otypes=[np.uint64])]; a Python int that does not fit the output dtype
    is refused. *)
Definition create_seed_u64 (n_hex : Z) (val : Z) : result Z :=
  r ← create_seed val n_hex;
  if r <? 2 ^ 64 then Ok r else Raise OverflowError.

(** ** Awkward arrays

    A chunk of events is a record array: every top-level field holds one
    entry per event.  Integer columns carry their values in [Z]; arithmetic
    on input columns before a cast to [np.uint64] is written exactly, the
    inputs being taken small enough for their own integer type. *)

Inductive array :=
| Flat (v : list Z)                     (* one integer per event *)
| Jagged (v : list (list Z))            (* one list of integers per event *)
| Struct (fs : gmap string (list Z))    (* a record of flat columns, as Pileup *)
| Collection (num : list nat) (fs : gmap string (list (list Z))).
                                        (* per event a list of [num] records *)

Abbreviation Events := (gmap string array).

(** The producer instance: the attributes stored by the setup functions and
    the dataset flag.  The prime table [columnflow.util.primes] is not part
    of the sources and is a parameter of the instance. *)
Record Producer := {
  primes : list Z;
  is_mc : bool
}.

(** [len(self.primes)] *)
Definition n_primes (self : Producer) : Z := Z.of_nat (length (primes self)).

(** [self.primes[i]] for an index that is not negative. *)
Definition primes_at (self : Producer) (i : Z) : result Z :=
  match primes self !! Z.to_nat i with
  | Some p => Ok p
  | None => Raise IndexError
  end.

(** Modelled from the spec: [Route] of columnflow.columnar_util is not part
    of the sources; a column is named by the dot-separated path of its
    fields ("Pileup.nPU" is field nPU of field Pileup). *)
Fixpoint route_fields (cur : string) (s : string) : list string :=
  match s with
  | EmptyString => [cur]
  | String c s' =>
      if Ascii.eqb c "."%char then cur :: route_fields EmptyString s'
      else route_fields (cur +:+ String c EmptyString) s'
  end.

Definition Route (s : string) : list string := route_fields EmptyString s.

(** Modelled from the spec: [Route.apply] of columnflow.columnar_util is not
    part of the sources; it selects the named field, [None] standing for
    awkward's [FieldNotFoundError]. *)
Definition Route_apply (route : list string) (events : Events) : option array :=
  match route with
  | [a] => events !! a
  | [a; b] =>
      match events !! a with
      | Some (Struct fs) => Flat <$> fs !! b
      | Some (Collection _ fs) => Jagged <$> fs !! b
      | _ => None
      end
  | _ => None
  end.

(** Modelled from the spec: [set_ak_column] of columnflow.columnar_util is
    not part of the sources; it returns the events with the column at the
    route added or replaced. A nested route needs its parent to hold
    records of the column's shape. *)
Definition set_ak_column (events : Events) (route : string) (value : array) : result Events :=
  match Route route with
  | [a] => Ok (<[a := value]> events)
  | [a; b] =>
      match events !! a, value with
      | Some (Collection num fs), Jagged v => Ok (<[a := Collection num (<[b := v]> fs)]> events)
      | Some (Struct fs), Flat v => Ok (<[a := Struct (<[b := v]> fs)]> events)
      | _, _ => Raise ValueError
      end
  | _ => Raise ValueError
  end.

(** [apply_field] (defined in [deterministic_event_seeds_setup]): the field,
    or [None] after the warning when it is not found. *)
Definition apply_field (events : Events) (field : string) : option array :=
  Route_apply (Route field) events.

(** [events.name] *)
Definition getattr (events : Events) (name : string) : result array :=
  match events !! name with
  | Some a => Ok a
  | None => Raise (AttributeError name)
  end.

(** The array as a one-dimensional numpy array. Jagged and record arrays are
    outside the contract of a per-event scalar column and are refused. *)
Definition as_flat (a : array) : result (list Z) :=
  match a with
  | Flat v => Ok v
  | _ => Raise ValueError
  end.

(** The array as lists of integers per event; other shapes are outside the
    contract of a per-object column and are refused. *)
Definition as_jagged (a : array) : result (list (list Z)) :=
  match a with
  | Jagged v => Ok v
  | _ => Raise ValueError
  end.

(** [ak.num(arr, axis=1)] *)
Definition ak_num (arr : array) : result (list Z) :=
  match arr with
  | Collection num _ => Ok (map Z.of_nat num)
  | Jagged v => Ok (map (fun l => Z.of_nat (length l)) v)
  | _ => Raise AxisError
  end.

(** Local indices [0, 1, ...] of a list of [n] entries. *)
Definition local_indices (n : nat) : list Z := map Z.of_nat (seq 0 n).

(** [ak.local_index(arr, axis=1)] *)
Definition ak_local_index (arr : array) : result (list (list Z)) :=
  match arr with
  | Collection num _ => Ok (map local_indices num)
  | Jagged v => Ok (map (fun l => local_indices (length l)) v)
  | _ => Raise AxisError
  end.

(** [ak.values_astype(values, np.uint64)] on a flat column. *)
Definition values_astype_u64 (v : list Z) : list Z := map u64 v.

(** [enumerate(l, start)] *)
Fixpoint enumerate {A} (l : list A) (start : Z) : list (Z * A) :=
  match l with
  | [] => []
  | x :: l' => (start, x) :: enumerate l' (start + 1)
  end.

(** Sum of a list of integers ([ak.sum] along the last axis). *)
Definition sum_list (l : list Z) : Z := fold_right Z.add 0 l.

(** Regroup a flat buffer by the given counts: the jagged array that shares
    the buffer. *)
Fixpoint unflatten {A} (counts : list nat) (buf : list A) : list (list A) :=
  match counts with
  | [] => []
  | n :: counts' => take n buf :: unflatten counts' (drop n buf)
  end.

(** ** [deterministic_event_seeds] *)

Definition value_offset : Z := 3.
Definition prime_offset : Z := 15.

(** Lines 54-61: the seed started from event, run and luminosity block. *)
Definition bootstrap (self : Producer) (events : Events) : result (list Z) :=
  p7 ← primes_at self 7;
  event ← getattr events "event" ≫= as_flat;
  p5 ← primes_at self 5;
  run ← getattr events "run" ≫= as_flat;
  p3 ← primes_at self 3;
  lumi ← getattr events "luminosityBlock" ≫= as_flat;
  let t7 := map (wmul p7) (values_astype_u64 event) in
  let t5 := map (wmul p5) (values_astype_u64 run) in
  let t3 := map (wmul p3) (values_astype_u64 lumi) in
  traverse (create_seed_u64 14) (zip_with wadd (zip_with wadd t7 t5) t3).

(** Lines 66-68: the flat fields. *)
Definition flat_fields (events : Events) : list string :=
  match apply_field events "Pileup.nPU" with
  | Some _ => ["Pileup.nPU"]
  | None => []
  end.

(** Lines 71-73. *)
Definition collections (self : Producer) : list string :=
  ["Jet"; "FatJet"; "SubJet"; "Photon"; "Muon"; "Electron"; "Tau"; "SV"]
  ++ (if is_mc self then ["GenJet"; "GenPart"] else []).

(** Lines 75-78: the body of the loop over the collections, on the pair of
    [global_fields] and [events]. *)
Definition count_step (st : list string * Events) (col : string)
  : result (list string * Events) :=
  match apply_field st.2 col with
  | None => Ok st
  | Some arr =>
      let field := "n" +:+ col in
      n ← ak_num arr;
      events ← set_ak_column st.2 field (Flat (values_astype_u64 n));
      Ok (st.1 ++ [field], events)
  end.

(** A [for] loop whose body may raise. *)
Fixpoint for_each {S A} (body : S -> A -> result S) (l : list A) (st : S) : result S :=
  match l with
  | [] => Ok st
  | x :: l' => st' ← body st x; for_each body l' st'
  end.

(** Lines 64-78. *)
Definition gather_global_fields (self : Producer) (events : Events)
  : result (list string * Events) :=
  for_each count_step (collections self) (flat_fields events, events).

(** Lines 84-86: the body of the loop over the global fields. *)
Definition global_step (self : Producer) (events : Events)
    (seed : list Z) (entry : Z * string) : result (list Z) :=
  let '(i, f) := entry in
  match Route_apply (Route f) events with
  | None => Raise (FieldNotFoundError f)
  | Some arr =>
      column ← as_flat arr;
      let values := map (fun v => v + i) column in
      ps ← traverse (fun v => primes_at self ((v + prime_offset) mod n_primes self)) values;
      Ok (zip_with wadd seed (zip_with wmul ps (values_astype_u64 values)))
  end.

(** Lines 81-86. *)
Definition global_pass (self : Producer) (events : Events)
    (global_fields : list string) (seed : list Z) : result (list Z) :=
  for_each (global_step self events) (enumerate global_fields value_offset) seed.

(** Lines 90-93. *)
Definition object_fields : list string :=
  ["Electron.jetIdx"; "Electron.seediPhiOriY"; "Tau.jetIdx"; "Tau.decayMode";
   "Muon.jetIdx"; "Muon.nStations"; "Jet.nConstituents"; "Jet.nElectrons";
   "Jet.nMuons"].

(** Lines 98-103 for the objects of one event; [values] are already shifted. *)
Definition hashed_of (values : list Z) : Z :=
  let loc := map (fun k => k + 1) (local_indices (length values)) in
  Z.of_nat (length values)
  + sum_list (zip_with Z.mul values loc)
  + sum_list (zip_with Z.mul (map (fun v => v ^ 2) values) loc).

(** Lines 95-105: the body of the loop over the object fields. *)
Definition object_step (self : Producer) (events : Events)
    (seed : list Z) (entry : Z * string) : result (list Z) :=
  let '(i, f) := entry in
  match apply_field events f with
  | None => Ok seed
  | Some arr =>
      column ← as_jagged arr;
      let values := map (map (fun v => v + i)) column in
      let hashed := map hashed_of values in
      ps ← traverse (fun h => primes_at self ((h + prime_offset) mod n_primes self)) hashed;
      Ok (zip_with wadd seed (zip_with wmul ps (values_astype_u64 hashed)))
  end.

(** Lines 90-105. *)
Definition object_pass (self : Producer) (events : Events) (seed : list Z)
  : result (list Z) :=
  for_each (object_step self events) (enumerate object_fields value_offset) seed.

(** The seed of every event before the last digest (lines 54-105), with the
    events as extended by the count columns. *)
Definition event_seed_raw (self : Producer) (events : Events)
  : result (list Z * Events) :=
  seed ← bootstrap self events;
  st ← gather_global_fields self events;
  seed ← global_pass self st.2 st.1 seed;
  seed ← object_pass self st.2 seed;
  Ok (seed, st.2).

Definition deterministic_event_seeds (self : Producer) (events : Events)
  : result Events :=
  st ← event_seed_raw self events;
  seed ← traverse (create_seed_u64 16) st.1;
  set_ak_column st.2 "deterministic_seed" (Flat (values_astype_u64 seed)).

(** ** [deterministic_jet_seeds] *)

(** Lines 169-174. The flattened numpy view shares its buffer with
    [jet_seed], so writing the digests into the view replaces the contents
    of [jet_seed] while its list structure stays. *)
Definition jet_seed_column (self : Producer) (events : Events)
  : result (list (list Z)) :=
  seeds ← getattr events "deterministic_seed" ≫= as_flat;
  ps ← traverse (fun e => primes_at self (e mod n_primes self)) seeds;
  seeds' ← getattr events "deterministic_seed" ≫= as_flat;
  index ← getattr events "Jet" ≫= ak_local_index;
  p50 ← primes_at self 50;
  let offsets := map (fun js => values_astype_u64 (map (fun j => j + p50) js)) index in
  let products := zip_with (fun p js => map (wmul p) js) ps offsets in
  let jet_seed := zip_with (fun e js => map (wadd e) js) seeds' products in
  let np_jet_seed := concat jet_seed in
  written ← traverse (create_seed_u64 16) np_jet_seed;
  Ok (unflatten (map length jet_seed) written).

Definition deterministic_jet_seeds (self : Producer) (events : Events)
  : result Events :=
  events ← deterministic_event_seeds self events;
  jet_seed ← jet_seed_column self events;
  set_ak_column events "Jet.deterministic_seed" (Jagged (map values_astype_u64 jet_seed)).

(** ** [deterministic_seeds] *)

Definition deterministic_seeds (self : Producer) (events : Events)
  : result Events :=
  events ← deterministic_event_seeds self events;
  deterministic_jet_seeds self events.

(** ** A concrete instance

    Modelled from the spec: the table [primes] of columnflow.util is not part
    of the sources; the specification asks for a fixed sequence of distinct
    primes with more than fifty entries. The first hundred primes are the
    instance on which the examples below are evaluated. *)
Definition sample_primes : list Z :=
  [ 2; 3; 5; 7; 11; 13; 17; 19; 23; 29;
    31; 37; 41; 43; 47; 53; 59; 61; 67; 71;
    73; 79; 83; 89; 97; 101; 103; 107; 109; 113;
    127; 131; 137; 139; 149; 151; 157; 163; 167; 173;
    179; 181; 191; 193; 197; 199; 211; 223; 227; 229;
    233; 239; 241; 251; 257; 263; 269; 271; 277; 281;
    283; 293; 307; 311; 313; 317; 331; 337; 347; 349;
    353; 359; 367; 373; 379; 383; 389; 397; 401; 409;
    419; 421; 431; 433; 439; 443; 449; 457; 461; 463;
    467; 479; 487; 491; 499; 503; 509; 521; 523; 541 ].

Definition sample_producer (mc : bool) : Producer :=
  {| primes := sample_primes; is_mc := mc |}.

(** A single event with run, luminosity block and event number 1 and
    nothing else. *)
Definition bare_event : Events :=
  {[ "run" := Flat [1]; "luminosityBlock" := Flat [1]; "event" := Flat [1] ]}.

(** The same event with a Jet collection that holds no jet. *)
Definition event_without_jets : Events :=
  <["Jet" := Collection [0%nat] {[ "pt" := [[]] ]}]> bare_event.

(** Two events with pileup, jets and electrons. *)
Definition two_events : Events :=
  {[ "run" := Flat [1; 2];
     "luminosityBlock" := Flat [1; 5];
     "event" := Flat [1; 77];
     "Pileup" := Struct {[ "nPU" := [0; 30] ]};
     "Jet" := Collection [0%nat; 2%nat] {[ "nConstituents" := [[]; [5; 9]] ]};
     "Electron" := Collection [0%nat; 1%nat] {[ "jetIdx" := [[]; [-1]] ]} ]}.

(** Only the electrons carry the second of the designated fields. *)
Definition one_electron_event : Events :=
  <["Electron" := Collection [1%nat] {[ "seediPhiOriY" := [[10]] ]}]> bare_event.

(** ** The shape of a chunk *)

(** Every field of a record array has one entry per event, and the columns
    of a collection list as many objects per event as the collection. *)
Definition has_rows (n : nat) (a : array) : Prop :=
  match a with
  | Flat v => length v = n
  | Jagged v => length v = n
  | Struct fs => map_Forall (fun _ v => length v = n) fs
  | Collection num fs =>
      length num = n /\ map_Forall (fun _ v => map length v = num) fs
  end.

#[global] Instance has_rows_dec n a : Decision (has_rows n a).
Proof. destruct a; simpl; apply _. Defined.

Definition rectangular (n : nat) (events : Events) : Prop :=
  map_Forall (fun _ a => has_rows n a) events.

#[global] Instance rectangular_dec n events : Decision (rectangular n events).
Proof. unfold rectangular. apply _. Defined.

(** All collection names that the event seeds may count. *)
Definition all_collections : list string :=
  ["Jet"; "FatJet"; "SubJet"; "Photon"; "Muon"; "Electron"; "Tau"; "SV";
   "GenJet"; "GenPart"].

Definition is_flat (o : option array) : bool :=
  match o with Some (Flat _) => true | _ => false end.

Definition struct_or_absent (o : option array) : bool :=
  match o with None | Some (Struct _) => true | _ => false end.

Definition collection_or_absent (o : option array) : bool :=
  match o with None | Some (Collection _ _) => true | _ => false end.

(** The input contract of the producers: the three identifying columns are
    per-event integers, Pileup (when present) is a flat record and every
    counted collection (when present) is a collection of records. *)
Definition well_shaped (events : Events) : bool :=
  is_flat (events !! "event") && is_flat (events !! "run")
  && is_flat (events !! "luminosityBlock")
  && struct_or_absent (events !! "Pileup")
  && forallb (fun col => collection_or_absent (events !! col)) all_collections.

(** ** Selecting events of a chunk ([events[index]]) *)

Definition take_rows {A} (index : list nat) (l : list A) : list A :=
  omap (fun i => l !! i) index.

Definition take_array (index : list nat) (a : array) : array :=
  match a with
  | Flat v => Flat (take_rows index v)
  | Jagged v => Jagged (take_rows index v)
  | Struct fs => Struct (take_rows index <$> fs)
  | Collection num fs => Collection (take_rows index num) (take_rows index <$> fs)
  end.

Definition take_events (index : list nat) (events : Events) : Events :=
  take_array index <$> events.

(** ** The formulas of the specification *)

(** [prime_at(index) = table[index mod len(table)]] *)
Definition prime_at (self : Producer) (index : Z) : Z :=
  nth (Z.to_nat (index mod n_primes self)) (primes self) 0.

(** Bootstrap digest on fourteen hex characters followed at once by the
    finalisation digest on sixteen, reduced modulo 2^64. *)
Definition digest_chain (x : Z) : result Z :=
  s0 ← digest_to_u64 (Z.to_N x) 14;
  s ← digest_to_u64 (Z.to_N s0) 16;
  Ok (s mod 2 ^ 64).

(** Global scalar pass: the update for the feature at position [i] with raw
    value [v]. *)
Definition global_update (self : Producer) (i v seed : Z) : Z :=
  wadd seed (wmul (prime_at self ((v + i + prime_offset) mod n_primes self)) (v + i)).

(** The raw value columns of the global features that the chunk has, in
    enumeration order: the pileup count, then the object count of every
    collection in canonical order. *)
Definition collection_count (events : Events) (col : string) : option (list Z) :=
  match events !! col with
  | Some (Collection num _) => Some (map (fun c => u64 (Z.of_nat c)) num)
  | _ => None
  end.

Definition global_features (self : Producer) (events : Events) : list (list Z) :=
  match apply_field events "Pileup.nPU" with
  | Some (Flat v) => [v]
  | _ => []
  end ++ omap (collection_count events) (collections self).

Definition global_pass_spec (self : Producer) (features : list (list Z))
    (seed : list Z) : list Z :=
  fold_left (fun seed entry => zip_with (fun s v => global_update self entry.1 v s) seed entry.2)
            (enumerate features value_offset) seed.

(** Object aggregate pass: position-weighted sums with 1-based positions. *)
Fixpoint weighted_sum (loc : Z) (f : Z -> Z) (values : list Z) : Z :=
  match values with
  | [] => 0
  | v :: values' => f v * loc + weighted_sum (loc + 1) f values'
  end.

Definition hashed_spec (i : Z) (field_values : list Z) : Z :=
  let values := map (fun v => v + i) field_values in
  Z.of_nat (length values)
  + weighted_sum 1 (fun v => v) values
  + weighted_sum 1 (fun v => v ^ 2) values.

Definition object_update (self : Producer) (i : Z) (field_values : list Z) (seed : Z) : Z :=
  let hashed := hashed_spec i field_values in
  wadd seed (wmul (prime_at self ((hashed + prime_offset) mod n_primes self)) hashed).

(** Object seed of the jet at 0-based local index [j] in an event with final
    seed [E]. *)
Definition object_seed (self : Producer) (E : Z) (j : nat) : result Z :=
  let prime := prime_at self (E mod n_primes self) in
  let raw := u64 (E + prime * (Z.of_nat j + prime_at self 50)) in
  s ← digest_to_u64 (Z.to_N raw) 16;
  Ok (s mod 2 ^ 64).

(** Whether the chunk has the field. *)
Definition present (events : Events) (field : string) : bool :=
  match apply_field events field with Some _ => true | None => false end.

(** Positions handed out in the order of the fields that are present. *)
Definition positions_by_presence (events : Events) (fields : list string)
  : list (Z * string) :=
  enumerate (filter (fun f => present events f = true) fields) value_offset.

(** Positions fixed by the place in the schema list, absent fields left out
    afterwards. *)
Definition positions_by_index (events : Events) (fields : list string)
  : list (Z * string) :=
  filter (fun e => present events e.2 = true) (enumerate fields value_offset).

(** The names of the count columns of the collections that the chunk has. *)
Definition count_names (self : Producer) (events : Events) : list string :=
  map (fun col => "n" +:+ col)
      (filter (fun col => present events col = true) (collections self)).

(** ** Auxiliary notions for the proofs *)

(** A character that [int(_, 16)] reads as one digit. *)
Definition hex_ok (c : ascii) : Prop :=
  exists d, hex_value c = Some d /\ 0 <= d < 16.

(** The value of the vectorised [create_seed], which never raises for one
    to sixteen hex characters. *)
Definition seed_digest (n_hex val : Z) : Z :=
  match create_seed_u64 n_hex val with
  | Ok r => r
  | Raise _ => 0
  end.

(** The count columns written by the loop over the collections, read off
    the incoming events. *)
Fixpoint counted (events : Events) (cols : list string)
  : result (list (string * array)) :=
  match cols with
  | [] => Ok []
  | col :: cols' =>
      match events !! col with
      | None => counted events cols'
      | Some arr =>
          n ← ak_num arr;
          rest ← counted events cols';
          Ok (("n" +:+ col, Flat (values_astype_u64 n)) :: rest)
      end
  end.

Definition insert_all (kvs : list (string * array)) (events : Events) : Events :=
  fold_left (fun e kv => <[kv.1 := kv.2]> e) kvs events.

(** A collection name: a single route field that is no count column. *)
Definition plain_collection (c : string) : Prop :=
  Route c = [c] /\ Route ("n" +:+ c) = ["n" +:+ c]
  /\ (forall c', c <> "n" +:+ c') /\ c <> "deterministic_seed"
  /\ "n" +:+ c <> "deterministic_seed".

(** The first field of a route. *)
Definition route_head (route : list string) : string :=
  match route with
  | a :: _ => a
  | [] => EmptyString
  end.

(** A field name that no count column bears. *)
Definition no_count_name (k : string) : Prop := forall c, k <> "n" +:+ c.

(** The designated object-level columns that the chunk has, each with its
    position. *)
Definition object_columns (events : Events) : list (Z * list (list Z)) :=
  omap (fun e => match apply_field events e.2 with
                 | Some (Jagged v) => Some (e.1, v)
                 | _ => None
                 end)
       (enumerate object_fields value_offset).

Definition object_pass_spec (self : Producer) (columns : list (Z * list (list Z)))
    (seed : list Z) : list Z :=
  fold_left (fun seed e => zip_with (fun s vs => object_update self e.1 vs s) seed e.2)
            columns seed.

(** The names and raw value columns of the global features of the chunk. *)
Definition flat_feature (events : Events) : list (string * list Z) :=
  match apply_field events "Pileup.nPU" with
  | Some (Flat v) => [("Pileup.nPU", v)]
  | _ => []
  end.

Definition count_feature (events : Events) (col : string) : option (string * list Z) :=
  (fun v => ("n" +:+ col, v)) <$> collection_count events col.

(** ** The producers in closed form *)

(** A per-event integer column of the chunk (empty when there is none). *)
Definition flat_column (events : Events) (name : string) : list Z :=
  match events !! name with
  | Some (Flat v) => v
  | _ => []
  end.

(** The number hashed first, per event. *)
Definition bootstrap_input (self : Producer) (events : Events) : list Z :=
  zip_with wadd
    (zip_with wadd
       (map (fun e => wmul (prime_at self 7) (u64 e)) (flat_column events "event"))
       (map (fun r => wmul (prime_at self 5) (u64 r)) (flat_column events "run")))
    (map (fun l => wmul (prime_at self 3) (u64 l)) (flat_column events "luminosityBlock")).

(** The event seeds of a chunk that meets the contract. *)
Definition event_seeds_spec (self : Producer) (events : Events) : list Z :=
  map (seed_digest 16)
      (object_pass_spec self (object_columns events)
         (global_pass_spec self (global_features self events)
            (map (seed_digest 14) (bootstrap_input self events)))).

(** The events with the count column of every collection they have. *)
Definition with_counts (self : Producer) (events : Events) : Events :=
  insert_all (map (fun e => (e.1, Flat e.2))
                  (omap (count_feature events) (collections self))) events.

(** The seeds of the jets of one event with seed [E] and [n] jets. *)
Definition jet_seeds_of (self : Producer) (E : Z) (n : nat) : list Z :=
  map (fun j => seed_digest 16
                  (wadd E (wmul (prime_at self E) (u64 (j + prime_at self 50)))))
      (local_indices n).

(** The optional columns named by the [uses] set of
    [deterministic_event_seeds]. *)
Definition optional_columns : list string :=
  ["Pileup.nPU"; "Photon.pt"; "SV.pt"; "FatJet.pt"; "SubJet.pt"; "GenJet.pt";
   "GenPart.pt"; "Electron.jetIdx"; "Electron.seediPhiOriY"; "Muon.jetIdx";
   "Muon.nStations"; "Tau.jetIdx"; "Tau.decayMode"; "Jet.nConstituents";
   "Jet.nElectrons"; "Jet.nMuons"].

(** The outcome of the event seed producer on events that it accepts. *)
Definition seeded (self : Producer) (events : Events) : Events :=
  match deterministic_event_seeds self events with
  | Ok r => r
  | Raise _ => ∅
  end.

(** ** Further notions for the properties beyond the claims *)

(** Lines 169-172 of [deterministic_jet_seeds]: the jagged array [jet_seed]
    as it is handed to [create_seed], before the digests are written into
    its buffer. *)
Definition jet_seed_before_digest (self : Producer) (events : Events)
  : result (list (list Z)) :=
  seeds ← getattr events "deterministic_seed" ≫= as_flat;
  ps ← traverse (fun e => primes_at self (e mod n_primes self)) seeds;
  seeds' ← getattr events "deterministic_seed" ≫= as_flat;
  index ← getattr events "Jet" ≫= ak_local_index;
  p50 ← primes_at self 50;
  let offsets := map (fun js => values_astype_u64 (map (fun j => j + p50) js)) index in
  let products := zip_with (fun p js => map (wmul p) js) ps offsets in
  Ok (zip_with (fun e js => map (wadd e) js) seeds' products).

(** The value hashed for the jet at local index [j] of an event with seed
    [E]. *)
Definition jet_raw (self : Producer) (E : Z) (j : Z) : Z :=
  wadd E (wmul (prime_at self E) (u64 (j + prime_at self 50))).




(** The fields that the event seed producer reads. *)
Definition fields_read (self : Producer) : list string :=
  ["event"; "run"; "luminosityBlock"; "Pileup"] ++ collections self.

(** The fields that the event seed producer writes. *)
Definition fields_written (self : Producer) : list string :=
  "deterministic_seed" :: map (fun c => "n" +:+ c) (collections self).

(** The columns that the event seed producer computes: the count columns
    and the seed column. *)
Definition seed_columns (self : Producer) (events : Events)
  : result (list (string * array) * list Z) :=
  seed ← bootstrap self events;
  kvs ← counted events (collections self);
  seed ← global_pass self (insert_all kvs events)
                     (flat_fields events ++ map fst kvs) seed;
  seed ← object_pass self (insert_all kvs events) seed;
  seed ← traverse (create_seed_u64 16) seed;
  Ok (kvs, values_astype_u64 seed).

(** * Properties *)

(** ** Test vectors *)

Example sha256_abc :
  SHA256.hexdigest (bytes_of_text "abc") =
  list_ascii_of_string "ba7816bf8f01cfea414140de5dae2223b00361a396177a9cb410ff61f20015ad".
Proof. vm_compute. reflexivity. Qed.

Example sha256_empty :
  SHA256.hexdigest [] =
  list_ascii_of_string "e3b0c44298fc1c149afbf4c8996fb92427ae41e4649b934ca495991b7852b855".
Proof. vm_compute. reflexivity. Qed.

Example sha256_two_blocks :
  SHA256.hexdigest (repeat 97 70) =
  list_ascii_of_string "6bd5e5034855a11241f0dee8fc72850ffd9955b28347a86428b5fa19119f6ad0".
Proof. vm_compute. reflexivity. Qed.

Example create_seed_1 : create_seed 1 16 = Ok 13021446370998214924.
Proof. vm_compute. reflexivity. Qed.

Example create_seed_1_14 : create_seed 1 14 = Ok 50865024886711777.
Proof. vm_compute. reflexivity. Qed.

Example create_seed_big : create_seed 12345678901234567890 16 = Ok 5782886089491813434.
Proof. vm_compute. reflexivity. Qed.

Example create_seed_no_digits : create_seed 1 0 = Raise ValueError.
Proof. vm_compute. reflexivity. Qed.

(** ** The digest mixer *)

Lemma str_of_N (value : N) :
  str (Z.of_N value) = NilZero.string_of_uint (N.to_uint value).
Proof.
  unfold str. destruct value as [|p]; reflexivity.
Qed.

Lemma nth_lookup_total {A} (d : A) (l : list A) (i : nat) (x : A) :
  l !! i = Some x -> nth i l d = x.
Proof.
  revert i. induction l as [|y l IH]; intros [|i] H; simplify_eq/=; auto.
Qed.

(** A slice that walks down from the last element and stops [n + 1] places
    from the end yields the last [n] elements, last one first. *)
Lemma slice_tail_count (len : Z) (n : nat) :
  0 <= len ->
  Z.to_nat (slice_length (slice_start len (-1) None)
                         (slice_stop len (-1) (Some (- (Z.of_nat n + 1)))) (-1))
  = Nat.min n (Z.to_nat len).
Proof.
  intros Hlen.
  unfold slice_start, slice_stop, slice_length, adjust_index.
  replace (-1 <? 0) with true by reflexivity.
  replace (- (Z.of_nat n + 1) <? 0) with true by (symmetry; apply Z.ltb_lt; lia).
  replace (- -1) with 1 by reflexivity.
  destruct (Z.ltb_spec (- (Z.of_nat n + 1) + len) 0).
  - destruct (Z.ltb_spec (-1) (len - 1)); [rewrite Z.div_1_r|]; lia.
  - destruct (Z.ltb_spec (- (Z.of_nat n + 1) + len) (len - 1));
      [rewrite Z.div_1_r|]; lia.
Qed.

(** A slice that walks down from the last element and stops [n + 1] places
    from the end yields the last [n] elements, last one first. *)
Lemma py_slice_tail_reversed {A} (d : A) (s : list A) (n : nat) :
  py_slice d s None (Some (- (Z.of_nat n + 1))) (-1) = take n (reverse s).
Proof.
  unfold py_slice. rewrite slice_tail_count by lia.
  rewrite Nat2Z.id. unfold slice_start. replace (-1 <? 0) with true by reflexivity.
  apply list_eq. intros k.
  rewrite list_lookup_fmap, lookup_take.
  destruct (decide (k < n)%nat) as [Hk|Hk].
  - destruct (decide (k < length s)%nat) as [Hks|Hks].
    + rewrite reverse_lookup by lia.
      rewrite lookup_seq_lt by lia. simpl.
      replace (Z.to_nat (Z.of_nat (length s) - 1 + Z.of_nat k * -1))
        with (length s - S k)%nat by lia.
      destruct (lookup_lt_is_Some_2 s (length s - S k)) as [x Hx]; [lia|].
      rewrite Hx. f_equal. by apply nth_lookup_total.
    + rewrite (lookup_ge_None_2 (reverse s)) by (rewrite length_reverse; lia).
      rewrite lookup_seq_ge; [reflexivity|lia].
  - rewrite lookup_seq_ge; [reflexivity|lia].
Qed.

Lemma create_seed_as_digest (value : N) (hex_chars : nat) :
  create_seed (Z.of_N value) (Z.of_nat hex_chars) = digest_to_u64 value hex_chars.
Proof.
  unfold create_seed, digest_to_u64.
  rewrite str_of_N, py_slice_tail_reversed. reflexivity.
Qed.

(** C2: for every non-negative [value] and every [hex_chars], [create_seed]
    is the digest mixer of the specification: the base-16 value of the last
    [hex_chars] characters, in reverse order, of the lowercase SHA-256 hex
    digest of the decimal text of [value].  Both sides are functions, so
    equal inputs give equal outputs; at [hex_chars = 0] no digit is left
    and both raise [ValueError]. *)
Theorem create_seed_is_digest_to_u64 (value : N) (hex_chars : nat) :
  create_seed (Z.of_N value) (Z.of_nat hex_chars) = digest_to_u64 value hex_chars.
Proof. apply create_seed_as_digest. Qed.

(** *** The digest is a text of sixty-four hex digits *)

Lemma hex_digit_ok (d : Z) : 0 <= d < 16 -> hex_ok (SHA256.hex_digit d).
Proof.
  intros Hd. exists d. split; [|exact Hd].
  assert (Hcases : d = 0 \/ d = 1 \/ d = 2 \/ d = 3 \/ d = 4 \/ d = 5 \/ d = 6
                   \/ d = 7 \/ d = 8 \/ d = 9 \/ d = 10 \/ d = 11 \/ d = 12
                   \/ d = 13 \/ d = 14 \/ d = 15) by lia.
  destruct_or!; subst d; reflexivity.
Qed.

Lemma hex_word_ok (x : Z) : Forall hex_ok (SHA256.hex_word x).
Proof.
  unfold SHA256.hex_word. apply Forall_fmap, Forall_forall.
  intros k _. apply hex_digit_ok. apply Z.mod_pos_bound. lia.
Qed.

Lemma hex_word_length (x : Z) : length (SHA256.hex_word x) = 8%nat.
Proof. reflexivity. Qed.

Lemma hexdigest_ok (msg : list Z) : Forall hex_ok (SHA256.hexdigest msg).
Proof.
  unfold SHA256.hexdigest. generalize (SHA256.digest msg). intros r.
  apply Forall_concat, Forall_fmap, Forall_forall.
  intros x _. apply hex_word_ok.
Qed.

Lemma hexdigest_length (msg : list Z) : length (SHA256.hexdigest msg) = 64%nat.
Proof.
  unfold SHA256.hexdigest. generalize (SHA256.digest msg). intros r.
  reflexivity.
Qed.

Lemma int_digits_bounds (s : list ascii) :
  Forall hex_ok s ->
  forall acc, 0 <= acc ->
  exists v, int_digits acc s = Some v
            /\ acc * 16 ^ Z.of_nat (length s) <= v < (acc + 1) * 16 ^ Z.of_nat (length s).
Proof.
  induction 1 as [|c s [d [Hc Hd]] Hs IH]; intros acc Hacc.
  - exists acc. simpl. split; [reflexivity|lia].
  - simpl int_digits. rewrite Hc.
    destruct (IH (16 * acc + d)) as [v [Hv Hb]]; [lia|].
    exists v. split; [exact Hv|].
    replace (Z.of_nat (length (c :: s))) with (Z.succ (Z.of_nat (length s)))
      by (simpl length; lia).
    rewrite Z.pow_succ_r by lia.
    assert (Hp : 0 < 16 ^ Z.of_nat (length s)) by (apply Z.pow_pos_nonneg; lia).
    nia.
Qed.

(** With at least one digit requested, [create_seed] returns, and its value
    fits the requested number of hex digits. *)
Lemma create_seed_total (val : Z) (n : nat) :
  (1 <= n)%nat ->
  exists v, create_seed val (Z.of_nat n) = Ok v /\ 0 <= v < 16 ^ Z.of_nat n.
Proof.
  intros Hn. unfold create_seed. rewrite py_slice_tail_reversed.
  set (hex := SHA256.hexdigest (bytes_of_text (str val))).
  assert (Hok : Forall hex_ok (take n (reverse hex))).
  { apply Forall_take, Forall_reverse, hexdigest_ok. }
  assert (Hlen : length (take n (reverse hex)) = Nat.min n 64).
  { rewrite length_take, length_reverse. unfold hex. by rewrite hexdigest_length. }
  destruct (int_digits_bounds _ Hok 0) as [v [Hv Hb]]; [lia|].
  exists v. split.
  - unfold int_base16. rewrite Hv.
    destruct (take n (reverse hex)) eqn:E; [|reflexivity].
    simpl in Hlen. lia.
  - rewrite Hlen in Hb. split; [lia|].
    eapply Z.lt_le_trans; [apply Hb|].
    rewrite Z.mul_1_l. apply Z.pow_le_mono_r; lia.
Qed.

Lemma create_seed_u64_total (n : nat) (val : Z) :
  (1 <= n <= 16)%nat ->
  exists v, create_seed_u64 (Z.of_nat n) val = Ok v /\ 0 <= v < 2 ^ 64.
Proof.
  intros Hn. destruct (create_seed_total val n) as [v [Hv Hb]]; [lia|].
  assert (H16 : 16 ^ Z.of_nat n <= 2 ^ 64).
  { change (2 ^ 64) with (16 ^ 16). apply Z.pow_le_mono_r; lia. }
  exists v. unfold create_seed_u64. rewrite Hv. simpl.
  destruct (Z.ltb_spec v (2 ^ 64)); [split; [reflexivity|lia]|lia].
Qed.

Lemma create_seed_u64_digest (n : nat) (val : Z) :
  (1 <= n <= 16)%nat ->
  create_seed_u64 (Z.of_nat n) val = Ok (seed_digest (Z.of_nat n) val).
Proof.
  intros Hn. destruct (create_seed_u64_total n val Hn) as [v [Hv _]].
  unfold seed_digest. rewrite Hv. reflexivity.
Qed.

Lemma seed_digest_range (n : nat) (val : Z) :
  (1 <= n <= 16)%nat -> 0 <= seed_digest (Z.of_nat n) val < 2 ^ 64.
Proof.
  intros Hn. destruct (create_seed_u64_total n val Hn) as [v [Hv Hb]].
  unfold seed_digest. rewrite Hv. exact Hb.
Qed.

(** The vectorised [create_seed] on a non-negative value, in the words of
    the specification. *)
Lemma create_seed_u64_spec (n : nat) (val : Z) :
  (1 <= n <= 16)%nat -> 0 <= val ->
  create_seed_u64 (Z.of_nat n) val
  = (s ← digest_to_u64 (Z.to_N val) n; Ok (s mod 2 ^ 64)).
Proof.
  intros Hn Hval. unfold create_seed_u64.
  destruct (create_seed_total val n) as [v [Hv Hb]]; [lia|].
  assert (H16 : 16 ^ Z.of_nat n <= 2 ^ 64).
  { change (2 ^ 64) with (16 ^ 16). apply Z.pow_le_mono_r; lia. }
  rewrite <- create_seed_as_digest, Z2N.id by lia.
  rewrite Hv. simpl.
  destruct (Z.ltb_spec v (2 ^ 64)); [|lia].
  rewrite Z.mod_small by lia. reflexivity.
Qed.

(** ** Unsigned 64-bit arithmetic *)

Lemma u64_range (x : Z) : 0 <= u64 x < 2 ^ 64.
Proof. apply Z.mod_pos_bound. lia. Qed.

Lemma u64_small (x : Z) : 0 <= x < 2 ^ 64 -> u64 x = x.
Proof. apply Z.mod_small. Qed.

Lemma u64_idem (x : Z) : u64 (u64 x) = u64 x.
Proof. apply u64_small, u64_range. Qed.

Lemma wmul_u64_r (p x : Z) : wmul p (u64 x) = wmul p x.
Proof. unfold wmul, u64. apply Zmult_mod_idemp_r. Qed.

Lemma wmul_u64_l (p x : Z) : wmul (u64 p) x = wmul p x.
Proof. unfold wmul, u64. apply Zmult_mod_idemp_l. Qed.

Lemma wadd_u64_r (s x : Z) : wadd s (u64 x) = wadd s x.
Proof. unfold wadd, u64. apply Zplus_mod_idemp_r. Qed.

Lemma wadd_u64_l (s x : Z) : wadd (u64 s) x = wadd s x.
Proof. unfold wadd, u64. apply Zplus_mod_idemp_l. Qed.

Lemma wadd_u64_l_aux (a b c : Z) : u64 (u64 (a + b) + c) = u64 (a + b + c).
Proof. unfold u64. apply Zplus_mod_idemp_l. Qed.

Lemma wadd_0_r (s : Z) : wadd s 0 = u64 s.
Proof. unfold wadd. by rewrite Z.add_0_r. Qed.

(** ** The result monad and elementwise application *)

Ltac rsimpl :=
  cbn [mbind result_bind mret result_ret fmap result_fmap fst snd] in *.

Lemma bind_Ok {A B} (m : result A) (f : A -> result B) (b : B) :
  m ≫= f = Ok b -> exists a, m = Ok a /\ f a = Ok b.
Proof. destruct m as [a|e]; [eauto|discriminate]. Qed.

Lemma bind_Ok_l {A B} (a : A) (f : A -> result B) : Ok a ≫= f = f a.
Proof. reflexivity. Qed.

Lemma bind_Raise_l {A B} (e : error) (f : A -> result B) : Raise e ≫= f = Raise e.
Proof. reflexivity. Qed.

Lemma traverse_map {A B} (f : A -> result B) (g : A -> B) (l : list A) :
  (forall x, x ∈ l -> f x = Ok (g x)) -> traverse f l = Ok (map g l).
Proof.
  induction l as [|x l IH]; intros H; [reflexivity|].
  simpl. rewrite H by left. simpl. rewrite IH; [reflexivity|].
  intros y Hy. apply H. by right.
Qed.

Lemma traverse_Ok_length {A B} (f : A -> result B) (l : list A) (l' : list B) :
  traverse f l = Ok l' -> length l' = length l.
Proof.
  revert l'. induction l as [|x l IH]; intros l' H; simpl in H.
  - by inversion H.
  - destruct (f x) as [y|]; [|discriminate]. simpl in H.
    destruct (traverse f l) as [ys|]; [|discriminate]. simpl in H.
    inversion H. simpl. f_equal. by apply IH.
Qed.

Lemma traverse_Ok_lookup {A B} (f : A -> result B) (l : list A) (l' : list B) i x :
  traverse f l = Ok l' -> l !! i = Some x ->
  exists y, f x = Ok y /\ l' !! i = Some y.
Proof.
  revert l' i. induction l as [|a l IH]; intros l' i H Hi; [done|].
  simpl in H. destruct (f a) as [y|] eqn:Hy; [|discriminate]. simpl in H.
  destruct (traverse f l) as [ys|] eqn:Hys; [|discriminate]. simpl in H.
  inversion H; subst l'. destruct i as [|i]; simpl in *.
  - inversion Hi; subst. eauto.
  - eapply IH; eauto.
Qed.

(** ** The prime table *)

Lemma primes_at_prime_at (self : Producer) (x : Z) :
  0 < n_primes self ->
  primes_at self (x mod n_primes self) = Ok (prime_at self x).
Proof.
  intros Hn. unfold primes_at, prime_at.
  assert (Hb : 0 <= x mod n_primes self < n_primes self) by (apply Z.mod_pos_bound; lia).
  destruct (lookup_lt_is_Some_2 (primes self) (Z.to_nat (x mod n_primes self)))
    as [p Hp]; [unfold n_primes in *; lia|].
  rewrite Hp. f_equal. symmetry. by apply nth_lookup_total.
Qed.

Lemma primes_at_const (self : Producer) (k : Z) :
  0 <= k < n_primes self -> primes_at self k = Ok (prime_at self k).
Proof.
  intros Hk. rewrite <- (Z.mod_small k (n_primes self)) at 1 by lia.
  apply primes_at_prime_at. lia.
Qed.

Lemma prime_at_mod (self : Producer) (x : Z) :
  prime_at self (x mod n_primes self) = prime_at self x.
Proof.
  unfold prime_at. destruct (Z.eq_dec (n_primes self) 0) as [H0|H0].
  - rewrite H0. by rewrite !Z.mod_0_r.
  - by rewrite Z.mod_mod.
Qed.

(** ** Routes and columns *)

Lemma all_collections_plain : Forall plain_collection all_collections.
Proof.
  unfold all_collections.
  repeat (apply Forall_cons; split;
          [repeat split; try reflexivity; try discriminate; intros c' H; discriminate H|]).
  apply Forall_nil_2.
Qed.

Lemma collections_plain (self : Producer) : Forall plain_collection (collections self).
Proof.
  pose proof all_collections_plain as H. unfold all_collections in H.
  unfold collections. destruct (is_mc self); simpl.
  - exact H.
  - rewrite !Forall_cons in H. rewrite !Forall_cons. tauto.
Qed.

Lemma collections_sub (self : Producer) c : c ∈ collections self -> c ∈ all_collections.
Proof.
  unfold collections, all_collections. destruct (is_mc self); simpl; [done|].
  rewrite !elem_of_cons. tauto.
Qed.

Lemma apply_field_plain (events : Events) c :
  plain_collection c -> apply_field events c = events !! c.
Proof. intros [Hc _]. unfold apply_field. by rewrite Hc. Qed.

Lemma set_count_column (events : Events) c (v : array) :
  plain_collection c ->
  set_ak_column events ("n" +:+ c) v = Ok (<["n" +:+ c := v]> events).
Proof. intros (_ & Hn & _). unfold set_ak_column. by rewrite Hn. Qed.

Lemma Route_apply_insert_ne (events : Events) route k (v : array) :
  route_head route <> k ->
  Route_apply route (<[k := v]> events) = Route_apply route events.
Proof.
  intros Hne. destruct route as [|a [|b [|c r]]]; simpl in *; try reflexivity.
  - by rewrite lookup_insert_ne.
  - by rewrite lookup_insert_ne.
Qed.

Lemma insert_all_cons kv kvs (events : Events) :
  insert_all (kv :: kvs) events = insert_all kvs (<[kv.1 := kv.2]> events).
Proof. reflexivity. Qed.

Lemma insert_all_lookup_ne kvs (events : Events) k :
  k ∉ map fst kvs -> insert_all kvs events !! k = events !! k.
Proof.
  revert events. induction kvs as [|[k' v] kvs IH]; intros events Hk; [done|].
  rewrite insert_all_cons. simpl in *. rewrite not_elem_of_cons in Hk.
  destruct Hk as [Hne Hk]. rewrite IH by done. by rewrite lookup_insert_ne.
Qed.

Lemma insert_all_lookup kvs (events : Events) k v :
  NoDup (map fst kvs) -> (k, v) ∈ kvs -> insert_all kvs events !! k = Some v.
Proof.
  revert events. induction kvs as [|[k' v'] kvs IH]; intros events Hnd Hin.
  - by apply elem_of_nil in Hin.
  - rewrite insert_all_cons. simpl in *. apply NoDup_cons in Hnd as [Hk' Hnd].
    apply elem_of_cons in Hin as [Heq|Hin].
    + inversion Heq; subst. rewrite insert_all_lookup_ne by done.
      by rewrite lookup_insert_eq.
    + by apply IH.
Qed.

Lemma insert_all_id kvs (events : Events) :
  (forall k v, (k, v) ∈ kvs -> events !! k = Some v) -> insert_all kvs events = events.
Proof.
  induction kvs as [|[k v] kvs IH]; intros H; [done|].
  rewrite insert_all_cons. simpl. rewrite insert_id by (apply H; left).
  apply IH. intros k' v' Hin. apply H. by right.
Qed.

Lemma Route_apply_insert_all_ne kvs (events : Events) route :
  route_head route ∉ map fst kvs ->
  Route_apply route (insert_all kvs events) = Route_apply route events.
Proof.
  revert events. induction kvs as [|[k v] kvs IH]; intros events Hk; [done|].
  rewrite insert_all_cons. simpl in *. rewrite not_elem_of_cons in Hk.
  destruct Hk as [Hne Hk]. rewrite IH by done. by apply Route_apply_insert_ne.
Qed.

(** The keys of the count columns. *)
Lemma counted_keys (events : Events) cols kvs :
  counted events cols = Ok kvs ->
  map fst kvs = map (fun c => "n" +:+ c) (filter (fun c => is_Some (events !! c)) cols).
Proof.
  revert kvs. induction cols as [|c cols IH]; intros kvs H; simpl in H.
  - by inversion H.
  - destruct (events !! c) as [arr|] eqn:Hc.
    + apply bind_Ok in H as [n [Hn H]]. apply bind_Ok in H as [rest [Hrest H]].
      inversion H; subst kvs. rewrite filter_cons_True by (rewrite Hc; eauto).
      simpl. f_equal. by apply IH.
    + rewrite filter_cons_False by (rewrite Hc; intros [? ?]; discriminate).
      by apply IH.
Qed.

Lemma count_step_eq gf (cur : Events) c :
  count_step (gf, cur) c
  = match apply_field cur c with
    | None => Ok (gf, cur)
    | Some arr =>
        n ← ak_num arr;
        events ← set_ak_column cur ("n" +:+ c) (Flat (values_astype_u64 n));
        Ok (gf ++ ["n" +:+ c], events)
    end.
Proof. reflexivity. Qed.

Lemma for_each_cons {S A} (body : S -> A -> result S) x l st :
  for_each body (x :: l) st = (st' ← body st x; for_each body l st').
Proof. reflexivity. Qed.

(** The loop over the collections, in closed form: the tests and counts
    read the incoming events, since no count column is named as a
    collection. *)
Lemma for_each_count_step (events : Events) cols gf (cur : Events) :
  Forall plain_collection cols ->
  (forall c, c ∈ cols -> cur !! c = events !! c) ->
  for_each count_step cols (gf, cur)
  = (kvs ← counted events cols; Ok (gf ++ map fst kvs, insert_all kvs cur)).
Proof.
  revert gf cur. induction cols as [|c cols IH]; intros gf cur Hplain Hcur.
  - simpl. by rewrite app_nil_r.
  - apply Forall_cons in Hplain as [Hc Hplain].
    rewrite for_each_cons, count_step_eq.
    rewrite apply_field_plain by done. rewrite Hcur by left.
    simpl counted. destruct (events !! c) as [arr|] eqn:Harr; cbn [mbind result_bind].
    + destruct (ak_num arr) as [n|e]; simpl; [|done].
      rewrite set_count_column by done. simpl.
      rewrite IH; [| done |].
      * destruct (counted events cols) as [rest|e]; simpl; [|done].
        by rewrite <- app_assoc.
      * intros c' Hc'. rewrite lookup_insert_ne; [apply Hcur; by right|].
        rewrite Forall_forall in Hplain. destruct (Hplain c' Hc') as (_ & _ & Hn & _).
        intros Heq. by apply (Hn c).
    + apply IH; [done|]. intros c' Hc'. apply Hcur. by right.
Qed.

Lemma gather_closed_form (self : Producer) (events : Events) :
  gather_global_fields self events
  = (kvs ← counted events (collections self);
     Ok (flat_fields events ++ map fst kvs, insert_all kvs events)).
Proof.
  unfold gather_global_fields. apply for_each_count_step; [|done].
  apply collections_plain.
Qed.

(** ** What each stage reads *)

Lemma for_each_ext {S A} (body1 body2 : S -> A -> result S) l st :
  (forall st x, x ∈ l -> body1 st x = body2 st x) ->
  for_each body1 l st = for_each body2 l st.
Proof.
  revert st. induction l as [|x l IH]; intros st H; [done|].
  rewrite !for_each_cons, H by left.
  destruct (body2 st x) as [st'|e]; simpl; [|done].
  apply IH. intros st'' y Hy. apply H. by right.
Qed.

Lemma bootstrap_ext (self : Producer) (ev1 ev2 : Events) :
  ev1 !! "event" = ev2 !! "event" -> ev1 !! "run" = ev2 !! "run" ->
  ev1 !! "luminosityBlock" = ev2 !! "luminosityBlock" ->
  bootstrap self ev1 = bootstrap self ev2.
Proof.
  intros He Hr Hl. unfold bootstrap, getattr. by rewrite He, Hr, Hl.
Qed.

Lemma elem_of_enumerate {A} (l : list A) start i x :
  (i, x) ∈ enumerate l start -> x ∈ l.
Proof.
  revert start. induction l as [|y l IH]; intros start H; simpl in H.
  - by apply elem_of_nil in H.
  - apply elem_of_cons in H as [H|H]; [inversion H; left|right; eauto].
Qed.

Lemma global_pass_ext (self : Producer) (ev1 ev2 : Events) gf seed :
  (forall f, f ∈ gf -> Route_apply (Route f) ev1 = Route_apply (Route f) ev2) ->
  global_pass self ev1 gf seed = global_pass self ev2 gf seed.
Proof.
  intros H. unfold global_pass. apply for_each_ext.
  intros st [i f] Hin. unfold global_step.
  rewrite (H f); [done|]. by eapply elem_of_enumerate.
Qed.

Lemma object_pass_ext (self : Producer) (ev1 ev2 : Events) seed :
  (forall f, f ∈ object_fields -> apply_field ev1 f = apply_field ev2 f) ->
  object_pass self ev1 seed = object_pass self ev2 seed.
Proof.
  intros H. unfold object_pass. apply for_each_ext.
  intros st [i f] Hin. unfold object_step.
  rewrite (H f); [done|]. by eapply elem_of_enumerate.
Qed.

(** The collections that carry the designated object fields. *)
Lemma object_fields_heads f :
  f ∈ object_fields ->
  route_head (Route f) ∈ ["Electron"; "Tau"; "Muon"; "Jet"].
Proof.
  unfold object_fields. rewrite !elem_of_cons, elem_of_nil.
  intros H. destruct_or!; subst f; try done;
    apply (bool_decide_unpack _); vm_compute; exact I.
Qed.

Lemma counted_keys_count_names (events : Events) cols kvs k :
  counted events cols = Ok kvs -> k ∈ map fst kvs -> exists c, c ∈ cols /\ k = "n" +:+ c.
Proof.
  intros H Hk. rewrite (counted_keys _ _ _ H) in Hk.
  apply list_elem_of_fmap in Hk as [c [-> Hc]].
  apply list_elem_of_filter in Hc as [_ Hc]. eauto.
Qed.

Lemma counted_keys_NoDup (events : Events) cols kvs :
  NoDup cols -> counted events cols = Ok kvs -> NoDup (map fst kvs).
Proof.
  intros Hnd H. rewrite (counted_keys _ _ _ H).
  apply NoDup_fmap_2; [|by apply NoDup_filter].
  intros c c' Heq. by inversion Heq.
Qed.

Lemma collections_NoDup (self : Producer) : NoDup (collections self).
Proof.
  unfold collections. destruct (is_mc self); simpl;
    apply (bool_decide_unpack _); vm_compute; exact I.
Qed.

Lemma counted_keys_not_in (events : Events) cols kvs k :
  counted events cols = Ok kvs -> no_count_name k -> k ∉ map fst kvs.
Proof.
  intros H Hk Hin. destruct (counted_keys_count_names _ _ _ _ H Hin) as [c [_ Hc]].
  by apply (Hk c).
Qed.

(** ** The event seed producer in closed form *)

Lemma set_deterministic_seed (events : Events) (v : array) :
  set_ak_column events "deterministic_seed" v
  = Ok (<["deterministic_seed" := v]> events).
Proof. reflexivity. Qed.

Lemma event_seeds_closed_form (self : Producer) (events : Events) :
  deterministic_event_seeds self events
  = (seed ← bootstrap self events;
     kvs ← counted events (collections self);
     seed ← global_pass self (insert_all kvs events)
                        (flat_fields events ++ map fst kvs) seed;
     seed ← object_pass self (insert_all kvs events) seed;
     seed ← traverse (create_seed_u64 16) seed;
     Ok (<["deterministic_seed" := Flat (values_astype_u64 seed)]>
           (insert_all kvs events))).
Proof.
  unfold deterministic_event_seeds, event_seed_raw.
  rewrite gather_closed_form.
  destruct (bootstrap self events) as [s0|e]; rsimpl; [|done].
  destruct (counted events (collections self)) as [kvs|e]; rsimpl; [|done].
  destruct (global_pass _ _ _ s0) as [s1|e]; rsimpl; [|done].
  destruct (object_pass _ _ s1) as [s2|e]; rsimpl; [|done].
  destruct (traverse _ s2) as [s3|e]; rsimpl; [|done].
  reflexivity.
Qed.

Lemma counted_ext (ev1 ev2 : Events) cols :
  (forall c, c ∈ cols -> ev1 !! c = ev2 !! c) -> counted ev1 cols = counted ev2 cols.
Proof.
  induction cols as [|c cols IH]; intros H; [done|].
  simpl. rewrite (H c) by left. rewrite IH; [done|].
  intros c' Hc'. apply H. by right.
Qed.

(** The fields of the outcome other than the seed and the count columns are
    those of the incoming events. *)
Lemma outputs_lookup_other (events : Events) cols kvs (v : array) k :
  counted events cols = Ok kvs ->
  k <> "deterministic_seed" -> no_count_name k ->
  (<["deterministic_seed" := v]> (insert_all kvs events)) !! k = events !! k.
Proof.
  intros Hkvs Hds Hk. rewrite lookup_insert_ne by done.
  apply insert_all_lookup_ne. by eapply counted_keys_not_in.
Qed.

Lemma outputs_Route_apply (events : Events) cols kvs (v : array) route :
  counted events cols = Ok kvs ->
  route_head route <> "deterministic_seed" -> no_count_name (route_head route) ->
  Route_apply route (<["deterministic_seed" := v]> (insert_all kvs events))
  = Route_apply route events.
Proof.
  intros Hkvs Hds Hk. rewrite Route_apply_insert_ne by done.
  apply Route_apply_insert_all_ne. by eapply counted_keys_not_in.
Qed.

Lemma plain_collection_no_count c : plain_collection c -> no_count_name c.
Proof. intros (_ & _ & H & _). exact H. Qed.

Lemma object_field_reads f :
  f ∈ object_fields ->
  route_head (Route f) <> "deterministic_seed" /\ no_count_name (route_head (Route f)).
Proof.
  intros Hf. apply object_fields_heads in Hf.
  rewrite !elem_of_cons, elem_of_nil in Hf.
  destruct_or!; try done; rewrite Hf; (split; [discriminate|intros c H; discriminate H]).
Qed.

(** Applied to its own outcome, the event seed producer returns that
    outcome unchanged. *)
Lemma event_seeds_idempotent (self : Producer) (events r : Events) :
  deterministic_event_seeds self events = Ok r ->
  deterministic_event_seeds self r = Ok r.
Proof.
  intros H. rewrite event_seeds_closed_form in H.
  apply bind_Ok in H as [s0 [Hs0 H]]. apply bind_Ok in H as [kvs [Hkvs H]].
  apply bind_Ok in H as [s1 [Hs1 H]]. apply bind_Ok in H as [s2 [Hs2 H]].
  apply bind_Ok in H as [s3 [Hs3 H]].
  assert (Hr : <["deterministic_seed" := Flat (values_astype_u64 s3)]>
                 (insert_all kvs events) = r) by congruence.
  clear H. set (v := Flat (values_astype_u64 s3)) in *.
  assert (Hother : forall k, k <> "deterministic_seed" -> no_count_name k ->
                             r !! k = events !! k).
  { intros k Hds Hk. rewrite <- Hr. by eapply outputs_lookup_other. }
  assert (Hroute : forall route, route_head route <> "deterministic_seed" ->
                                 no_count_name (route_head route) ->
                                 Route_apply route r = Route_apply route events).
  { intros route Hds Hk. rewrite <- Hr. by eapply outputs_Route_apply. }
  pose proof (collections_plain self) as Hplain. rewrite Forall_forall in Hplain.
  rewrite event_seeds_closed_form.
  rewrite (bootstrap_ext self r events), Hs0;
    [| apply Hother; [discriminate|intros c Hc; discriminate Hc] ..].
  rsimpl.
  rewrite (counted_ext r events), Hkvs.
  2:{ intros c Hc. destruct (Hplain c Hc) as (_ & _ & Hn & Hd & _). by apply Hother. }
  rsimpl.
  assert (Hid : insert_all kvs r = r).
  { apply insert_all_id. intros k x Hin.
    assert (Hk : k ∈ map fst kvs) by (apply list_elem_of_fmap; exists (k, x); done).
    destruct (counted_keys_count_names _ _ _ _ Hkvs Hk) as [c [Hc ->]].
    destruct (Hplain c Hc) as (_ & _ & _ & _ & Hd).
    rewrite <- Hr, lookup_insert_ne by done.
    apply insert_all_lookup; [|done].
    eapply counted_keys_NoDup; [apply collections_NoDup|done]. }
  rewrite Hid.
  assert (Hflat : flat_fields r = flat_fields events).
  { unfold flat_fields, apply_field. rewrite Hroute; [done|discriminate|].
    intros c Hc; discriminate Hc. }
  rewrite Hflat.
  rewrite (global_pass_ext self r (insert_all kvs events)), Hs1.
  2:{ intros f Hf. rewrite <- Hr. apply Route_apply_insert_ne.
      apply elem_of_app in Hf as [Hf|Hf].
      - unfold flat_fields in Hf. destruct (apply_field events "Pileup.nPU");
          [|by apply elem_of_nil in Hf].
        apply list_elem_of_singleton in Hf. subst f. discriminate.
      - destruct (counted_keys_count_names _ _ _ _ Hkvs Hf) as [c [Hc ->]].
        destruct (Hplain c Hc) as (_ & Hn & _ & _ & Hd). by rewrite Hn. }
  rsimpl.
  rewrite (object_pass_ext self r (insert_all kvs events)), Hs2.
  2:{ intros f Hf. unfold apply_field. rewrite <- Hr. apply Route_apply_insert_ne.
      by apply object_field_reads. }
  rsimpl. rewrite Hs3. rsimpl. fold v.
  rewrite <- Hr. by rewrite insert_insert_eq.
Qed.

Lemma event_seeds_then_jet_seeds (self : Producer) (events : Events) :
  deterministic_seeds self events = deterministic_jet_seeds self events.
Proof.
  unfold deterministic_seeds.
  destruct (deterministic_event_seeds self events) as [r|e] eqn:E; rsimpl.
  - unfold deterministic_jet_seeds. rewrite E.
    by rewrite (event_seeds_idempotent self events r E).
  - unfold deterministic_jet_seeds. by rewrite E.
Qed.


(** C10: a second application of the event seed producer to its own
    outcome, which carries [deterministic_seed] and the count columns,
    returns the very same events, hence the same seeds; and the composite
    producer, which runs the event seeds and then the jet seeds (which run
    the event seeds once more), yields exactly what the jet seed producer
    yields on the incoming events. *)
Theorem event_seeds_idempotent_on_output (self : Producer) (events : Events) :
  (deterministic_event_seeds self events ≫= deterministic_event_seeds self)
  = deterministic_event_seeds self events
  /\ deterministic_seeds self events = deterministic_jet_seeds self events.
Proof.
  split; [|apply event_seeds_then_jet_seeds].
  destruct (deterministic_event_seeds self events) as [r|e] eqn:E; rsimpl; [|done].
  by apply (event_seeds_idempotent self events).
Qed.

(** ** The global scalar pass *)

Lemma zip_global_update (self : Producer) (i : Z) (column seed : list Z) :
  zip_with wadd seed
    (zip_with wmul
       (map (fun v => prime_at self (v + prime_offset)) (map (fun v => v + i) column))
       (values_astype_u64 (map (fun v => v + i) column)))
  = zip_with (fun s v => global_update self i v s) seed column.
Proof.
  revert seed. induction column as [|v column IH]; intros [|s seed]; try reflexivity.
  simpl. rewrite IH. f_equal.
  unfold global_update. by rewrite wmul_u64_r, prime_at_mod.
Qed.

Lemma global_step_flat (self : Producer) (events : Events) seed i f column :
  0 < n_primes self ->
  Route_apply (Route f) events = Some (Flat column) ->
  global_step self events seed (i, f)
  = Ok (zip_with (fun s v => global_update self i v s) seed column).
Proof.
  intros Hn Hf. unfold global_step. rewrite Hf. rsimpl. simpl as_flat. rsimpl.
  rewrite (traverse_map _ (fun v => prime_at self (v + prime_offset))).
  2:{ intros x _. by apply primes_at_prime_at. }
  rsimpl. by rewrite zip_global_update.
Qed.

Lemma global_pass_features (self : Producer) (events : Events)
    (feats : list (string * list Z)) :
  0 < n_primes self ->
  Forall (fun fc => Route_apply (Route fc.1) events = Some (Flat fc.2)) feats ->
  forall start seed,
  for_each (global_step self events) (enumerate (map fst feats) start) seed
  = Ok (fold_left (fun seed entry =>
                     zip_with (fun s v => global_update self entry.1 v s) seed entry.2)
                  (enumerate (map snd feats) start) seed).
Proof.
  intros Hn. induction 1 as [|[f column] feats Hf _ IH]; intros start seed; [done|].
  simpl map. simpl enumerate. rewrite for_each_cons.
  rewrite (global_step_flat self events seed start f column) by done.
  rsimpl. rewrite IH. reflexivity.
Qed.

(** *** What the contract on the shape gives *)

Lemma well_shaped_event (events : Events) :
  well_shaped events = true -> exists v, events !! "event" = Some (Flat v).
Proof.
  unfold well_shaped. rewrite !andb_true_iff. intros [[[[H _] _] _] _].
  destruct (events !! "event") as [[]|]; try discriminate; eauto.
Qed.

Lemma well_shaped_run (events : Events) :
  well_shaped events = true -> exists v, events !! "run" = Some (Flat v).
Proof.
  unfold well_shaped. rewrite !andb_true_iff. intros [[[[_ H] _] _] _].
  destruct (events !! "run") as [[]|]; try discriminate; eauto.
Qed.

Lemma well_shaped_lumi (events : Events) :
  well_shaped events = true -> exists v, events !! "luminosityBlock" = Some (Flat v).
Proof.
  unfold well_shaped. rewrite !andb_true_iff. intros [[[_ H] _] _].
  destruct (events !! "luminosityBlock") as [[]|]; try discriminate; eauto.
Qed.

Lemma well_shaped_pileup (events : Events) :
  well_shaped events = true -> struct_or_absent (events !! "Pileup") = true.
Proof. unfold well_shaped. rewrite !andb_true_iff. tauto. Qed.

Lemma well_shaped_collection (events : Events) c :
  well_shaped events = true -> c ∈ all_collections ->
  collection_or_absent (events !! c) = true.
Proof.
  unfold well_shaped. rewrite !andb_true_iff. intros [_ H] Hc.
  rewrite forallb_forall in H. apply H. by apply list_elem_of_In.
Qed.

Lemma nPU_flat_or_absent (events : Events) :
  struct_or_absent (events !! "Pileup") = true ->
  apply_field events "Pileup.nPU" = None
  \/ exists v, apply_field events "Pileup.nPU" = Some (Flat v).
Proof.
  intros H. unfold apply_field. change (Route "Pileup.nPU") with ["Pileup"; "nPU"].
  simpl. destruct (events !! "Pileup") as [[]|]; try discriminate; auto.
  destruct (fs !! "nPU"); simpl; eauto.
Qed.

Lemma flat_fields_feature (events : Events) :
  struct_or_absent (events !! "Pileup") = true ->
  flat_fields events = map fst (flat_feature events).
Proof.
  intros H. unfold flat_fields, flat_feature.
  destruct (nPU_flat_or_absent events H) as [E|[v E]]; by rewrite E.
Qed.

Lemma counted_well_shaped (events : Events) cols :
  (forall c, c ∈ cols -> collection_or_absent (events !! c) = true) ->
  counted events cols
  = Ok (map (fun e => (e.1, Flat e.2)) (omap (count_feature events) cols)).
Proof.
  induction cols as [|c cols IH]; intros H; [done|].
  simpl. rewrite IH by (intros c' Hc'; apply H; by right).
  pose proof (H c ltac:(left)) as Hc. unfold count_feature, collection_count.
  destruct (events !! c) as [[]|]; try discriminate; rsimpl; try done.
  simpl. unfold values_astype_u64. by rewrite map_map.
Qed.

Lemma present_collection (events : Events) c :
  plain_collection c ->
  collection_or_absent (events !! c) = true ->
  present events c = true <-> is_Some (collection_count events c).
Proof.
  intros Hp Hc. unfold present, collection_count.
  rewrite apply_field_plain by done.
  destruct (events !! c) as [[]|]; try discriminate; split; intros H;
    try done; try (by eexists); by destruct H.
Qed.

Lemma count_feature_names (events : Events) cols :
  Forall plain_collection cols ->
  (forall c, c ∈ cols -> collection_or_absent (events !! c) = true) ->
  map fst (omap (count_feature events) cols)
  = map (fun c => "n" +:+ c) (filter (fun c => present events c = true) cols).
Proof.
  induction 1 as [|c cols Hc _ IH]; intros H; [done|].
  pose proof (present_collection events c Hc (H c ltac:(left))) as Hp.
  simpl omap. unfold count_feature at 1.
  destruct (collection_count events c) as [v|] eqn:E; simpl.
  - rewrite filter_cons_True by (apply Hp; eauto). simpl. f_equal.
    apply IH. intros c' Hc'. apply H. by right.
  - rewrite filter_cons_False.
    + apply IH. intros c' Hc'. apply H. by right.
    + intros Hpres. apply Hp in Hpres. by destruct Hpres.
Qed.

Lemma count_feature_values (events : Events) cols :
  map snd (omap (count_feature events) cols) = omap (collection_count events) cols.
Proof.
  induction cols as [|c cols IH]; [done|].
  simpl omap. unfold count_feature at 1.
  destruct (collection_count events c); simpl; [f_equal|]; exact IH.
Qed.

Lemma global_features_values (self : Producer) (events : Events) :
  map snd (flat_feature events ++ omap (count_feature events) (collections self))
  = global_features self events.
Proof.
  rewrite map_app, count_feature_values. unfold global_features, flat_feature.
  by destruct (apply_field events "Pileup.nPU") as [[]|].
Qed.

(** Under the contract, the loop over the collections returns the names of
    the global features in presence order and the events with the count
    columns, and every named feature is then a flat column. *)
Lemma gather_well_shaped (self : Producer) (events : Events) :
  well_shaped events = true ->
  let feats := flat_feature events ++ omap (count_feature events) (collections self) in
  exists events',
    gather_global_fields self events = Ok (map fst feats, events')
    /\ events' = insert_all (map (fun e => (e.1, Flat e.2))
                                 (omap (count_feature events) (collections self))) events
    /\ Forall (fun fc => Route_apply (Route fc.1) events' = Some (Flat fc.2)) feats.
Proof.
  intros Hws feats.
  assert (Hcols : forall c, c ∈ collections self ->
                            collection_or_absent (events !! c) = true).
  { intros c Hc. apply well_shaped_collection; [done|by apply (collections_sub self)]. }
  pose proof (counted_well_shaped events (collections self) Hcols) as Hkvs.
  set (kvs := map (fun e => (e.1, Flat e.2))
                  (omap (count_feature events) (collections self))) in *.
  exists (insert_all kvs events). split; [|split; [done|]].
  - rewrite gather_closed_form, Hkvs. rsimpl. do 2 f_equal.
    unfold feats. rewrite map_app, flat_fields_feature by by apply well_shaped_pileup.
    f_equal. unfold kvs. rewrite map_map. done.
  - unfold feats. apply Forall_app. split.
    + unfold flat_feature.
      destruct (apply_field events "Pileup.nPU") as [[v| | |]|] eqn:E;
        try apply Forall_nil_2.
      apply Forall_singleton. cbn [fst snd].
      change (Route "Pileup.nPU") with ["Pileup"; "nPU"].
      rewrite Route_apply_insert_all_ne; [exact E|].
      eapply counted_keys_not_in; [exact Hkvs|]. intros c Hc. discriminate Hc.
    + apply Forall_forall. intros [k v] Hin. cbn [fst snd].
      assert (Hk : k ∈ map fst kvs).
      { unfold kvs. rewrite map_map. cbn [fst snd]. apply list_elem_of_fmap. by exists (k, v). }
      destruct (counted_keys_count_names _ _ _ _ Hkvs Hk) as [c [Hc ->]].
      pose proof (collections_plain self) as Hplain. rewrite Forall_forall in Hplain.
      destruct (Hplain c Hc) as (_ & Hn & _). rewrite Hn. unfold Route_apply.
      apply insert_all_lookup.
      * eapply counted_keys_NoDup; [apply collections_NoDup|exact Hkvs].
      * unfold kvs. apply list_elem_of_fmap. by exists ("n" +:+ c, v).
Qed.

(** C3: in the global scalar pass the pileup count (when the chunk has it)
    and the object count of every collection that the chunk has, in the
    canonical order with the generator collections only for simulated data,
    take the consecutive positions 3, 4, ..., and the feature at position
    [i] with raw value [v] turns the seed into
    [seed + prime_at((v + i + 15) mod table_len) * (v + i)], sum and product
    taken modulo 2^64. *)
Theorem global_pass_consecutive_positions (self : Producer) (events : Events)
    (seed : list Z) :
  well_shaped events = true -> 0 < n_primes self ->
  exists global_fields events',
    gather_global_fields self events = Ok (global_fields, events')
    /\ global_fields = flat_fields events ++ count_names self events
    /\ global_pass self events' global_fields seed
       = Ok (global_pass_spec self (global_features self events) seed).
Proof.
  intros Hws Hn. destruct (gather_well_shaped self events Hws) as (events' & Hg & _ & Hf).
  eexists _, events'. split; [exact Hg|]. split.
  - rewrite map_app, <- flat_fields_feature by by apply well_shaped_pileup.
    f_equal. unfold count_names. apply count_feature_names; [apply collections_plain|].
    intros c Hc. apply well_shaped_collection; [done|by apply (collections_sub self)].
  - unfold global_pass. rewrite (global_pass_features self events' _ Hn Hf).
    unfold global_pass_spec. by rewrite global_features_values.
Qed.

(** ** The object aggregate pass *)

Lemma weighted_sum_zip (f : Z -> Z) (values : list Z) (k : nat) :
  sum_list (zip_with Z.mul (map f values)
              (map (fun j => j + 1) (map Z.of_nat (seq k (length values)))))
  = weighted_sum (Z.of_nat k + 1) f values.
Proof.
  revert k. induction values as [|v values IH]; intros k; [done|].
  simpl. rewrite IH. f_equal. f_equal. lia.
Qed.

Lemma hashed_of_spec (i : Z) (field_values : list Z) :
  hashed_of (map (fun v => v + i) field_values) = hashed_spec i field_values.
Proof.
  unfold hashed_of, hashed_spec, local_indices.
  set (values := map (fun v => v + i) field_values).
  rewrite (weighted_sum_zip (fun v => v ^ 2) values 0).
  pose proof (weighted_sum_zip (fun v => v) values 0) as H.
  rewrite map_id in H. rewrite H. reflexivity.
Qed.

Lemma zip_object_update (self : Producer) (i : Z) (column : list (list Z)) (seed : list Z) :
  zip_with wadd seed
    (zip_with wmul
       (map (fun h => prime_at self (h + prime_offset))
            (map hashed_of (map (map (fun v => v + i)) column)))
       (values_astype_u64 (map hashed_of (map (map (fun v => v + i)) column))))
  = zip_with (fun s vs => object_update self i vs s) seed column.
Proof.
  revert seed. induction column as [|vs column IH]; intros [|s seed]; try reflexivity.
  simpl. rewrite IH. f_equal.
  unfold object_update. by rewrite wmul_u64_r, prime_at_mod, hashed_of_spec.
Qed.

Lemma object_step_jagged (self : Producer) (events : Events) seed i f column :
  0 < n_primes self ->
  apply_field events f = Some (Jagged column) ->
  object_step self events seed (i, f)
  = Ok (zip_with (fun s vs => object_update self i vs s) seed column).
Proof.
  intros Hn Hf. unfold object_step. rewrite Hf. rsimpl. simpl as_jagged. rsimpl.
  rewrite (traverse_map _ (fun h => prime_at self (h + prime_offset))).
  2:{ intros x _. by apply primes_at_prime_at. }
  rsimpl. by rewrite zip_object_update.
Qed.

Lemma object_step_absent (self : Producer) (events : Events) seed i f :
  apply_field events f = None -> object_step self events seed (i, f) = Ok seed.
Proof. intros Hf. unfold object_step. by rewrite Hf. Qed.


(** The whole pass: the fields that the chunk lacks are passed over, the
    others keep the position of their place in the list. *)
Lemma object_pass_positions (self : Producer) (events : Events) fields start seed :
  for_each (object_step self events) (enumerate fields start) seed
  = for_each (object_step self events)
             (filter (fun e => present events e.2 = true) (enumerate fields start)) seed.
Proof.
  revert start seed. induction fields as [|f fields IH]; intros start seed; [done|].
  simpl enumerate. unfold present at 1. cbn [snd].
  destruct (apply_field events f) as [arr|] eqn:E.
  - rewrite filter_cons_True by (cbn [snd]; unfold present; by rewrite E).
    rewrite !for_each_cons.
    destruct (object_step self events seed (start, f)); rsimpl; [apply IH|done].
  - rewrite filter_cons_False by (cbn [snd]; unfold present; by rewrite E).
    rewrite for_each_cons, object_step_absent by done. rsimpl. apply IH.
Qed.

Lemma object_pass_columns (self : Producer) (events : Events) :
  0 < n_primes self ->
  forall entries seed,
  (forall e, e ∈ entries ->
             apply_field events e.2 = None
             \/ exists v, apply_field events e.2 = Some (Jagged v)) ->
  for_each (object_step self events) entries seed
  = Ok (object_pass_spec self
          (omap (fun e => match apply_field events e.2 with
                          | Some (Jagged v) => Some (e.1, v)
                          | _ => None
                          end) entries) seed).
Proof.
  intros Hn. induction entries as [|[i f] entries IH]; intros seed H; [done|].
  rewrite for_each_cons. simpl omap. cbn [fst snd].
  destruct (H (i, f) ltac:(left)) as [E|[v E]]; cbn [snd] in E; rewrite E.
  - rewrite object_step_absent by done. rsimpl.
    apply IH. intros e He. apply H. by right.
  - rewrite (object_step_jagged self events seed i f v) by done. rsimpl.
    rewrite IH by (intros e He; apply H; by right). reflexivity.
Qed.

Lemma object_field_shape (events : Events) f :
  well_shaped events = true ->
  f ∈ object_fields ->
  apply_field events f = None \/ exists v, apply_field events f = Some (Jagged v).
Proof.
  intros Hws Hf.
  assert (Hshape : forall c, c ∈ ["Electron"; "Tau"; "Muon"; "Jet"] ->
                             collection_or_absent (events !! c) = true).
  { intros c Hc. apply well_shaped_collection; [done|].
    unfold all_collections. rewrite !elem_of_cons, elem_of_nil in Hc.
    rewrite !elem_of_cons. tauto. }
  unfold object_fields in Hf. rewrite !elem_of_cons, elem_of_nil in Hf.
  unfold apply_field.
  destruct_or!; try done; subst f;
    match goal with
    | |- context [Route ?s] =>
        let r := eval vm_compute in (Route s) in change (Route s) with r
    end;
    unfold Route_apply;
    match goal with
    | |- context [events !! ?c] =>
        let H := fresh in
        assert (H : collection_or_absent (events !! c) = true)
          by (apply Hshape; rewrite !elem_of_cons; tauto);
        destruct (events !! c) as [[]|]; try discriminate H; auto;
        match goal with
        | |- context [?fs !! ?b] => destruct (fs !! b); simpl; eauto
        end
    end.
Qed.

(** ** The event seed producer on a chunk that meets the contract *)

Lemma bootstrap_well_shaped (self : Producer) (events : Events) :
  well_shaped events = true -> 7 < n_primes self ->
  bootstrap self events = Ok (map (seed_digest 14) (bootstrap_input self events)).
Proof.
  intros Hws Hn.
  destruct (well_shaped_event events Hws) as [ev Hev].
  destruct (well_shaped_run events Hws) as [rn Hrn].
  destruct (well_shaped_lumi events Hws) as [lb Hlb].
  unfold bootstrap, bootstrap_input, flat_column, getattr.
  rewrite !primes_at_const by lia. rewrite Hev, Hrn, Hlb. rsimpl.
  simpl as_flat. rsimpl.
  unfold values_astype_u64. rewrite !map_map.
  apply traverse_map. intros x _.
  apply (create_seed_u64_digest 14). lia.
Qed.

Lemma object_pass_well_shaped (self : Producer) (events events' : Events) seed :
  well_shaped events = true -> 0 < n_primes self ->
  (forall f, f ∈ object_fields -> apply_field events' f = apply_field events f) ->
  object_pass self events' seed
  = Ok (object_pass_spec self (object_columns events) seed).
Proof.
  intros Hws Hn Hsame.
  rewrite (object_pass_ext self events' events) by done.
  unfold object_pass, object_columns. apply object_pass_columns; [done|].
  intros [i f] He. cbn [snd]. apply object_field_shape; [done|].
  by eapply elem_of_enumerate.
Qed.

Lemma with_counts_apply_field (self : Producer) (events : Events) f :
  well_shaped events = true ->
  f ∈ object_fields ->
  apply_field (with_counts self events) f = apply_field events f.
Proof.
  intros Hws Hf. unfold apply_field, with_counts.
  apply Route_apply_insert_all_ne.
  assert (Hcols : forall c, c ∈ collections self ->
                            collection_or_absent (events !! c) = true).
  { intros c Hc. apply well_shaped_collection; [done|by apply (collections_sub self)]. }
  eapply counted_keys_not_in; [by apply counted_well_shaped|].
  by apply object_field_reads.
Qed.

Lemma seed_digests_u64 (l : list Z) :
  values_astype_u64 (map (seed_digest 16) l) = map (seed_digest 16) l.
Proof.
  unfold values_astype_u64. rewrite map_map. apply map_ext.
  intros x. apply u64_small. apply (seed_digest_range 16). lia.
Qed.

(** On a chunk that meets the contract the event seed producer returns: the
    events with the count columns and the seed column. *)
Lemma event_seeds_well_shaped (self : Producer) (events : Events) :
  well_shaped events = true -> 7 < n_primes self ->
  deterministic_event_seeds self events
  = Ok (<["deterministic_seed" := Flat (event_seeds_spec self events)]>
          (with_counts self events)).
Proof.
  intros Hws Hn.
  destruct (gather_well_shaped self events Hws) as (events' & Hg & Hev' & Hf).
  unfold deterministic_event_seeds, event_seed_raw.
  rewrite bootstrap_well_shaped, Hg by done. rsimpl.
  unfold global_pass. rewrite (global_pass_features self events' _ ltac:(lia) Hf).
  rsimpl. rewrite global_features_values. fold (with_counts self events) in Hev'.
  subst events'.
  rewrite (object_pass_well_shaped self events) by
    (try done; try lia; intros f Hf'; by apply with_counts_apply_field).
  rsimpl.
  rewrite (traverse_map _ (seed_digest 16)).
  2:{ intros x _. apply (create_seed_u64_digest 16). lia. }
  rsimpl. rewrite set_deterministic_seed, seed_digests_u64. reflexivity.
Qed.

Lemma global_pass_consecutive_positions_witness :
  exists global_fields events',
    gather_global_fields (sample_producer true) two_events = Ok (global_fields, events')
    /\ global_fields = flat_fields two_events ++ count_names (sample_producer true) two_events
    /\ global_pass (sample_producer true) events' global_fields [7; 9]
       = Ok (global_pass_spec (sample_producer true)
               (global_features (sample_producer true) two_events) [7; 9]).
Proof.
  apply (global_pass_consecutive_positions (sample_producer true) two_events [7; 9]).
  - vm_compute. reflexivity.
  - reflexivity.
Defined.


(** ** The end-to-end example *)

Lemma digest_to_u64_seed_digest (n : nat) (x : Z) :
  (1 <= n <= 16)%nat -> 0 <= x ->
  digest_to_u64 (Z.to_N x) n = Ok (seed_digest (Z.of_nat n) x).
Proof.
  intros Hn Hx. rewrite <- create_seed_as_digest, Z2N.id by lia.
  destruct (create_seed_total x n) as [v [Hv Hb]]; [lia|].
  assert (H16 : 16 ^ Z.of_nat n <= 2 ^ 64).
  { change (2 ^ 64) with (16 ^ 16). apply Z.pow_le_mono_r; lia. }
  unfold seed_digest, create_seed_u64. rewrite Hv. rsimpl.
  destruct (Z.ltb_spec v (2 ^ 64)); [done|lia].
Qed.

Lemma digest_chain_seed_digest (x : Z) :
  0 <= x -> digest_chain x = Ok (seed_digest 16 (seed_digest 14 x)).
Proof.
  intros Hx. unfold digest_chain.
  rewrite (digest_to_u64_seed_digest 14 x) by lia.
  rewrite bind_Ok_l.
  pose proof (seed_digest_range 14 x ltac:(lia)) as H14.
  rewrite (digest_to_u64_seed_digest 16 (seed_digest (Z.of_nat 14) x)) by lia.
  rewrite bind_Ok_l.
  pose proof (seed_digest_range 16 (seed_digest (Z.of_nat 14) x) ltac:(lia)) as H16.
  rewrite Z.mod_small by exact H16. reflexivity.
Qed.

Lemma counted_absent (events : Events) cols :
  (forall c, c ∈ cols -> events !! c = None) -> counted events cols = Ok [].
Proof.
  induction cols as [|c cols IH]; intros H; [done|].
  simpl. rewrite (H c) by left. apply IH. intros c' Hc'. apply H. by right.
Qed.

Lemma object_pass_absent (self : Producer) (events : Events) seed :
  (forall f, f ∈ object_fields -> apply_field events f = None) ->
  object_pass self events seed = Ok seed.
Proof.
  intros H. unfold object_pass.
  generalize value_offset. revert H. generalize object_fields.
  induction l as [|f fields IH]; intros H start; [done|].
  simpl enumerate. rewrite for_each_cons, object_step_absent by (apply H; left).
  rsimpl. apply IH. intros f' Hf'. apply H. by right.
Qed.

Lemma object_field_absent (events : Events) f :
  (forall c, c ∈ ["Electron"; "Tau"; "Muon"; "Jet"] -> events !! c = None) ->
  f ∈ object_fields -> apply_field events f = None.
Proof.
  intros Habs Hf. unfold object_fields in Hf. rewrite !elem_of_cons, elem_of_nil in Hf.
  unfold apply_field.
  destruct_or!; try done; subst f;
    match goal with
    | |- context [Route ?s] =>
        let r := eval vm_compute in (Route s) in change (Route s) with r
    end;
    unfold Route_apply;
    match goal with
    | |- context [events !! ?c] =>
        rewrite (Habs c) by (rewrite !elem_of_cons; tauto); reflexivity
    end.
Qed.

Lemma collections_hold_object_fields (self : Producer) c :
  c ∈ ["Electron"; "Tau"; "Muon"; "Jet"] -> c ∈ collections self.
Proof.
  unfold collections. rewrite elem_of_app, !elem_of_cons. tauto.
Qed.

Lemma wadd_wmul_ones (p7 p5 p3 : Z) :
  wadd (wadd (wmul p7 (u64 1)) (wmul p5 (u64 1))) (wmul p3 (u64 1))
  = u64 (p7 + p5 + p3).
Proof.
  rewrite !wmul_u64_r. unfold wadd, wmul, u64. rewrite !Z.mul_1_r.
  rewrite <- (Zplus_mod p7 p5), <- (Zplus_mod (p7 + p5) p3). reflexivity.
Qed.

Lemma traverse_singleton {A B} (f : A -> result B) (a : A) :
  traverse f [a] = (y ← f a; Ok [y]).
Proof. simpl. by destruct (f a). Qed.

Lemma bootstrap_single (self : Producer) (events : Events) :
  7 < n_primes self ->
  events !! "event" = Some (Flat [1]) ->
  events !! "run" = Some (Flat [1]) ->
  events !! "luminosityBlock" = Some (Flat [1]) ->
  bootstrap self events
  = Ok [seed_digest 14 (u64 (prime_at self 7 + prime_at self 5 + prime_at self 3))].
Proof.
  intros Hn Hev Hrn Hlb.
  unfold bootstrap, getattr. rewrite !primes_at_const by lia.
  rewrite Hev, Hrn, Hlb. rewrite !bind_Ok_l.
  change (as_flat (Flat [1])) with (Ok [1]). rewrite !bind_Ok_l.
  change (values_astype_u64 [1]) with [u64 1].
  cbn [map zip_with]. rewrite wadd_wmul_ones, traverse_singleton.
  change 14 with (Z.of_nat 14) at 1.
  rewrite (create_seed_u64_digest 14) by lia. rewrite bind_Ok_l.
  reflexivity.
Qed.

(** C1, as amended: for a single event with run, luminosity block and event
    number 1 in a chunk that has neither Pileup.nPU nor any of the counted
    collections, the event seed is the bootstrap digest on fourteen hex
    characters of [(P[7] + P[5] + P[3]) mod 2^64] followed at once by the
    finalisation digest on sixteen; no pass in between contributes. *)
Theorem end_to_end_example (self : Producer) (events : Events) :
  7 < n_primes self ->
  events !! "event" = Some (Flat [1]) ->
  events !! "run" = Some (Flat [1]) ->
  events !! "luminosityBlock" = Some (Flat [1]) ->
  apply_field events "Pileup.nPU" = None ->
  (forall c, c ∈ collections self -> events !! c = None) ->
  exists s,
    digest_chain (u64 (prime_at self 7 + prime_at self 5 + prime_at self 3)) = Ok s
    /\ deterministic_event_seeds self events
       = Ok (<["deterministic_seed" := Flat [s]]> events).
Proof.
  intros Hn Hev Hrn Hlb Hpu Hcols.
  pose proof (u64_range (prime_at self 7 + prime_at self 5 + prime_at self 3)) as Hx.
  eexists. split.
  - apply digest_chain_seed_digest. lia.
  - rewrite event_seeds_closed_form.
    rewrite bootstrap_single by done. rewrite bind_Ok_l.
    rewrite counted_absent by done. rewrite bind_Ok_l.
    unfold flat_fields. rewrite Hpu.
    change (global_pass self (insert_all [] events) ([] ++ map fst []) ?s)
      with (Ok s).
    rewrite bind_Ok_l.
    rewrite object_pass_absent.
    2:{ intros f Hf. apply object_field_absent; [|done].
        intros c Hc. apply Hcols. by apply collections_hold_object_fields. }
    rewrite bind_Ok_l, traverse_singleton.
    change 16 with (Z.of_nat 16) at 1.
    rewrite (create_seed_u64_digest 16) by lia. rewrite !bind_Ok_l.
    change (insert_all [] events) with events.
    change (values_astype_u64 [?v]) with [u64 v].
    rewrite (u64_small (seed_digest _ _)) by (apply (seed_digest_range 16); lia).
    reflexivity.
Qed.

Lemma end_to_end_example_witness :
  exists s,
    digest_chain (u64 (prime_at (sample_producer false) 7
                       + prime_at (sample_producer false) 5
                       + prime_at (sample_producer false) 3)) = Ok s
    /\ deterministic_event_seeds (sample_producer false) bare_event
       = Ok (<["deterministic_seed" := Flat [s]]> bare_event).
Proof.
  apply (end_to_end_example (sample_producer false) bare_event).
  - reflexivity.
  - reflexivity.
  - reflexivity.
  - reflexivity.
  - reflexivity.
  - intros c Hc. unfold collections in Hc. simpl in Hc.
    rewrite !elem_of_cons, elem_of_nil in Hc.
    destruct_or!; try done; subst c; reflexivity.
Defined.

(** C1, as stated, fails when a collection is in the chunk without any
    object: the chunk has none of the optional columns, its only collection
    holds no jet, and yet the count column nJet = 0 enters the seed at
    position 3 with the value [0 + 3]. *)
Lemma empty_collection_changes_seed :
  event_without_jets !! "event" = Some (Flat [1])
  /\ event_without_jets !! "run" = Some (Flat [1])
  /\ event_without_jets !! "luminosityBlock" = Some (Flat [1])
  /\ Forall (fun f => apply_field event_without_jets f = None) optional_columns
  /\ event_without_jets !! "Jet" = Some (Collection [0%nat] {[ "pt" := [[]] ]})
  /\ exists s s',
       digest_chain (prime_at (sample_producer false) 7
                     + prime_at (sample_producer false) 5
                     + prime_at (sample_producer false) 3) = Ok s
       /\ (deterministic_event_seeds (sample_producer false) event_without_jets
           ≫= fun r => getattr r "deterministic_seed") = Ok (Flat [s'])
       /\ s <> s'.
Proof.
  repeat split; try reflexivity.
  - unfold optional_columns. repeat (apply Forall_cons; split; [reflexivity|]).
    apply Forall_nil_2.
  - exists 13082129665886096593, 14923420137361084808.
    split; [vm_compute; reflexivity|].
    split; [vm_compute; reflexivity|discriminate].
Qed.

(** ** Enumeration positions *)

Lemma enumerate_lookup {A} (l : list A) (start : Z) (k : nat) :
  enumerate l start !! k = (fun x => (start + Z.of_nat k, x)) <$> l !! k.
Proof.
  revert start k. induction l as [|x l IH]; intros start [|k]; try reflexivity.
  - simpl. by rewrite Z.add_0_r.
  - simpl. rewrite IH. destruct (l !! k); simpl; [|done].
    do 2 f_equal. lia.
Qed.

Lemma flat_fields_present (events : Events) :
  flat_fields events = filter (fun f => present events f = true) ["Pileup.nPU"].
Proof.
  unfold flat_fields. destruct (apply_field events "Pileup.nPU") eqn:E.
  - rewrite filter_cons_True by (unfold present; by rewrite E). done.
  - rewrite filter_cons_False by (unfold present; by rewrite E). done.
Qed.

Lemma gather_names (self : Producer) (events : Events) :
  well_shaped events = true ->
  exists events',
    gather_global_fields self events
    = Ok (flat_fields events ++ count_names self events, events').
Proof.
  intros Hws. destruct (gather_well_shaped self events Hws) as (events' & Hg & _ & _).
  exists events'. rewrite Hg. do 2 f_equal.
  rewrite map_app, <- flat_fields_feature by by apply well_shaped_pileup.
  f_equal. unfold count_names. apply count_feature_names; [apply collections_plain|].
  intros c Hc. apply well_shaped_collection; [done|by apply (collections_sub self)].
Qed.

(** C7, as amended: an optional feature that the chunk lacks is passed over
    without any substitute value.  Among the global scalar features it also
    takes no position: the features that are present take the consecutive
    positions 3, 4, ... in their order.  A designated object-level field
    keeps the position of its place in the fixed list, 3 plus its index,
    whichever of the other fields are present. *)
Theorem positions_of_optional_features (self : Producer) (events : Events)
    (seed : list Z) :
  well_shaped events = true ->
  let global_fields :=
    filter (fun f => present events f = true) ["Pileup.nPU"] ++ count_names self events in
  (exists events', gather_global_fields self events = Ok (global_fields, events'))
  /\ (forall k f, global_fields !! k = Some f ->
                  enumerate global_fields value_offset !! k
                  = Some (value_offset + Z.of_nat k, f))
  /\ object_pass self events seed
     = for_each (object_step self events)
                (positions_by_index events object_fields) seed
  /\ (forall k f, object_fields !! k = Some f -> present events f = true ->
                  (value_offset + Z.of_nat k, f) ∈ positions_by_index events object_fields).
Proof.
  intros Hws gf. split; [|split; [|split]].
  - unfold gf. rewrite <- flat_fields_present. by apply gather_names.
  - intros k f Hk. by rewrite enumerate_lookup, Hk.
  - apply object_pass_positions.
  - intros k f Hk Hp. unfold positions_by_index.
    apply list_elem_of_filter. split; [exact Hp|].
    apply list_elem_of_lookup. exists k. by rewrite enumerate_lookup, Hk.
Qed.

Lemma positions_of_optional_features_witness :
  let global_fields :=
    filter (fun f => present two_events f = true) ["Pileup.nPU"]
    ++ count_names (sample_producer true) two_events in
  (exists events',
      gather_global_fields (sample_producer true) two_events = Ok (global_fields, events'))
  /\ (forall k f, global_fields !! k = Some f ->
                  enumerate global_fields value_offset !! k
                  = Some (value_offset + Z.of_nat k, f))
  /\ object_pass (sample_producer true) two_events [7; 9]
     = for_each (object_step (sample_producer true) two_events)
                (positions_by_index two_events object_fields) [7; 9]
  /\ (forall k f, object_fields !! k = Some f -> present two_events f = true ->
                  (value_offset + Z.of_nat k, f)
                  ∈ positions_by_index two_events object_fields).
Proof.
  apply (positions_of_optional_features (sample_producer true) two_events [7; 9]).
  vm_compute. reflexivity.
Defined.

(** C7, as stated, fails for the object-level fields: in a chunk whose
    electrons carry only the second designated field, that field is hashed
    at position 4, its place in the list, and not at position 3, the first
    position in presence order; the two give different seeds. *)
Lemma object_position_not_by_presence :
  present one_electron_event "Electron.jetIdx" = false
  /\ positions_by_presence one_electron_event object_fields
     = [(3, "Electron.seediPhiOriY")]
  /\ positions_by_index one_electron_event object_fields
     = [(4, "Electron.seediPhiOriY")]
  /\ object_pass (sample_producer false) one_electron_event [0] = Ok [21733]
  /\ for_each (object_step (sample_producer false) one_electron_event)
              (positions_by_presence one_electron_event object_fields) [0]
     = Ok [95709]
  /\ object_pass (sample_producer false) one_electron_event [0]
     <> for_each (object_step (sample_producer false) one_electron_event)
                 (positions_by_presence one_electron_event object_fields) [0].
Proof.
  repeat split; try (vm_compute; reflexivity).
  vm_compute. discriminate.
Qed.

(** ** The jet seed producer *)

Lemma bootstrap_Ok_primes (self : Producer) (events : Events) s :
  bootstrap self events = Ok s -> 7 < n_primes self.
Proof.
  unfold bootstrap, primes_at. intros H.
  destruct (primes self !! Z.to_nat 7) as [p|] eqn:E; [|discriminate H].
  apply lookup_lt_Some in E. unfold n_primes. lia.
Qed.

(** What the event seed producer returns when it returns. *)
Lemma event_seeds_output (self : Producer) (events r : Events) :
  deterministic_event_seeds self events = Ok r ->
  exists kvs seeds,
    counted events (collections self) = Ok kvs
    /\ r = <["deterministic_seed" := Flat seeds]> (insert_all kvs events)
    /\ 7 < n_primes self.
Proof.
  intros H. rewrite event_seeds_closed_form in H.
  apply bind_Ok in H as [s0 [Hs0 H]]. apply bind_Ok in H as [kvs [Hkvs H]].
  apply bind_Ok in H as [s1 [Hs1 H]]. apply bind_Ok in H as [s2 [Hs2 H]].
  apply bind_Ok in H as [s3 [Hs3 H]].
  exists kvs, (values_astype_u64 s3). split; [done|]. split; [congruence|].
  by eapply bootstrap_Ok_primes.
Qed.

Lemma event_seeds_output_other (self : Producer) (events r : Events) k :
  deterministic_event_seeds self events = Ok r ->
  k <> "deterministic_seed" -> no_count_name k -> r !! k = events !! k.
Proof.
  intros H Hds Hk. destruct (event_seeds_output self events r H) as (kvs & seeds & Hkvs & -> & _).
  by eapply outputs_lookup_other.
Qed.

Lemma unflatten_concat_map {A B} (f : A -> B) (l : list (list A)) :
  unflatten (map length l) (map f (concat l)) = map (map f) l.
Proof.
  induction l as [|x l IH]; [done|].
  simpl. rewrite map_app, take_app_length', drop_app_length' by by rewrite length_map.
  by rewrite IH.
Qed.

Lemma jet_seed_rows (self : Producer) (seeds : list Z) (num : list nat) :
  map (map (seed_digest 16))
      (zip_with (fun e js => map (wadd e) js) seeds
         (zip_with (fun p js => map (wmul p) js) (map (prime_at self) seeds)
            (map (fun js => values_astype_u64 (map (fun j => j + prime_at self 50) js))
                 (map local_indices num))))
  = zip_with (jet_seeds_of self) seeds num.
Proof.
  revert num. induction seeds as [|e seeds IH]; intros [|n num]; try reflexivity.
  cbn [map zip_with]. rewrite IH. f_equal.
  unfold jet_seeds_of, values_astype_u64. rewrite !map_map. reflexivity.
Qed.

Lemma jet_seed_column_closed_form (self : Producer) (r : Events) seeds num fs :
  r !! "deterministic_seed" = Some (Flat seeds) ->
  r !! "Jet" = Some (Collection num fs) ->
  50 < n_primes self ->
  jet_seed_column self r = Ok (zip_with (jet_seeds_of self) seeds num).
Proof.
  intros Hds Hjet Hn. unfold jet_seed_column, getattr. rewrite Hds, Hjet.
  rewrite !bind_Ok_l. change (as_flat (Flat seeds)) with (Ok seeds).
  rewrite !bind_Ok_l.
  rewrite (traverse_map _ (prime_at self)).
  2:{ intros e _. apply primes_at_prime_at. lia. }
  rewrite !bind_Ok_l.
  change (ak_local_index (Collection num fs)) with (Ok (map local_indices num)).
  rewrite !bind_Ok_l, primes_at_const by lia. rewrite !bind_Ok_l.
  rewrite (traverse_map _ (seed_digest 16)).
  2:{ intros x _. apply (create_seed_u64_digest 16). lia. }
  rewrite bind_Ok_l. f_equal.
  rewrite unflatten_concat_map. apply jet_seed_rows.
Qed.

Lemma jet_seeds_of_u64 (self : Producer) (E : Z) (n : nat) :
  values_astype_u64 (jet_seeds_of self E n) = jet_seeds_of self E n.
Proof.
  unfold values_astype_u64, jet_seeds_of. rewrite map_map. apply map_ext.
  intros j. apply u64_small. apply (seed_digest_range 16). lia.
Qed.

Lemma jet_columns_u64 (self : Producer) (seeds : list Z) (num : list nat) :
  map values_astype_u64 (zip_with (jet_seeds_of self) seeds num)
  = zip_with (jet_seeds_of self) seeds num.
Proof.
  revert num. induction seeds as [|e seeds IH]; intros [|n num]; try reflexivity.
  cbn [map zip_with]. by rewrite IH, jet_seeds_of_u64.
Qed.

Lemma set_jet_seed_column (r : Events) num fs (v : list (list Z)) :
  r !! "Jet" = Some (Collection num fs) ->
  set_ak_column r "Jet.deterministic_seed" (Jagged v)
  = Ok (<["Jet" := Collection num (<["deterministic_seed" := v]> fs)]> r).
Proof.
  intros H. unfold set_ak_column.
  change (Route "Jet.deterministic_seed") with ["Jet"; "deterministic_seed"].
  cbv beta iota. by rewrite H.
Qed.

(** With the Jet collection in the chunk, the jet seed producer attaches
    the seeds of the jets to it. *)
Lemma jet_seeds_closed_form (self : Producer) (events r : Events) seeds num fs :
  deterministic_event_seeds self events = Ok r ->
  r !! "deterministic_seed" = Some (Flat seeds) ->
  events !! "Jet" = Some (Collection num fs) ->
  50 < n_primes self ->
  deterministic_jet_seeds self events
  = Ok (<["Jet" := Collection num
                     (<["deterministic_seed" := zip_with (jet_seeds_of self) seeds num]> fs)]>
          r).
Proof.
  intros HE Hds Hjet Hn.
  assert (Hrjet : r !! "Jet" = Some (Collection num fs)).
  { rewrite (event_seeds_output_other self events r) by
      (try done; intros c Hc; discriminate Hc). done. }
  unfold deterministic_jet_seeds. rewrite HE, bind_Ok_l.
  rewrite (jet_seed_column_closed_form self r seeds num fs) by done.
  rewrite bind_Ok_l, jet_columns_u64.
  by apply set_jet_seed_column.
Qed.

(** Without the Jet collection the jet seed producer raises as soon as the
    event seeds are there. *)
Lemma jet_seeds_without_jets (self : Producer) (events : Events) :
  events !! "Jet" = None ->
  deterministic_jet_seeds self events
  = (deterministic_event_seeds self events ≫= fun _ => Raise (AttributeError "Jet")).
Proof.
  intros Hjet. unfold deterministic_jet_seeds.
  destruct (deterministic_event_seeds self events) as [r|e] eqn:HE;
    rewrite ?bind_Ok_l, ?bind_Raise_l; [|done].
  destruct (event_seeds_output self events r HE) as (kvs & seeds & Hkvs & Hr & Hn).
  assert (Hrjet : r !! "Jet" = None).
  { rewrite (event_seeds_output_other self events r) by
      (try done; intros c Hc; discriminate Hc). done. }
  assert (Hds : r !! "deterministic_seed" = Some (Flat seeds)).
  { rewrite Hr. apply lookup_insert_eq. }
  unfold jet_seed_column, getattr. rewrite Hds, Hrjet.
  rewrite !bind_Ok_l. change (as_flat (Flat seeds)) with (Ok seeds).
  rewrite !bind_Ok_l.
  rewrite (traverse_map _ (prime_at self)).
  2:{ intros e _. apply primes_at_prime_at. lia. }
  rewrite !bind_Ok_l. reflexivity.
Qed.

(** C8, as amended: for a chunk without the Jet collection the jet seed
    producer is no no-op: once the event seeds are computed, the access to
    [events.Jet] raises [AttributeError], so no events are returned (and an
    error of the event seeds is passed on). *)
Theorem jet_seeds_need_jet_collection (self : Producer) (events : Events) :
  events !! "Jet" = None ->
  deterministic_jet_seeds self events
  = (deterministic_event_seeds self events ≫= fun _ => Raise (AttributeError "Jet"))
  /\ forall r, deterministic_jet_seeds self events <> Ok r.
Proof.
  intros Hjet. rewrite jet_seeds_without_jets by done. split; [done|].
  intros r. by destruct (deterministic_event_seeds self events).
Qed.

Lemma jet_seeds_need_jet_collection_witness :
  deterministic_jet_seeds (sample_producer false) bare_event
  = (deterministic_event_seeds (sample_producer false) bare_event
     ≫= fun _ => Raise (AttributeError "Jet"))
  /\ forall r, deterministic_jet_seeds (sample_producer false) bare_event <> Ok r.
Proof.
  apply (jet_seeds_need_jet_collection (sample_producer false) bare_event).
  reflexivity.
Defined.

(** C8, as stated, fails: the chunk meets the contract and has no Jet
    collection, and the jet seed producer raises instead of returning it. *)
Lemma jet_seeds_raise_without_jets :
  well_shaped bare_event = true
  /\ bare_event !! "Jet" = None
  /\ deterministic_jet_seeds (sample_producer false) bare_event
     = Raise (AttributeError "Jet").
Proof.
  repeat split; vm_compute; reflexivity.
Qed.

Lemma seed_digest_16_range (val : Z) : 0 <= seed_digest 16 val < 2 ^ 64.
Proof. apply (seed_digest_range 16). lia. Qed.

Lemma digest_to_u64_16 (x : Z) :
  0 <= x -> digest_to_u64 (Z.to_N x) 16 = Ok (seed_digest 16 x).
Proof. intros Hx. apply (digest_to_u64_seed_digest 16). lia. exact Hx. Qed.

Lemma object_seed_digest (self : Producer) (E : Z) (j : nat) :
  object_seed self E j
  = Ok (seed_digest 16
          (wadd E (wmul (prime_at self E) (u64 (Z.of_nat j + prime_at self 50))))).
Proof.
  unfold object_seed. rewrite prime_at_mod.
  assert (Heq : wadd E (wmul (prime_at self E) (u64 (Z.of_nat j + prime_at self 50)))
                = u64 (E + prime_at self E * (Z.of_nat j + prime_at self 50))).
  { rewrite wmul_u64_r. unfold wmul. by rewrite wadd_u64_r. }
  rewrite Heq.
  pose proof (u64_range (E + prime_at self E * (Z.of_nat j + prime_at self 50))) as Hraw.
  revert Hraw.
  generalize (u64 (E + prime_at self E * (Z.of_nat j + prime_at self 50))).
  intros raw Hraw.
  rewrite (digest_to_u64_16 raw) by lia. rewrite bind_Ok_l.
  rewrite Z.mod_small by apply seed_digest_16_range. reflexivity.
Qed.

Lemma local_indices_lookup (n j : nat) :
  (j < n)%nat -> local_indices n !! j = Some (Z.of_nat j).
Proof.
  intros Hj. unfold local_indices. rewrite list_lookup_fmap, lookup_seq_lt by done.
  reflexivity.
Qed.

Lemma jet_seeds_of_lookup (self : Producer) (E : Z) (n j : nat) :
  (j < n)%nat ->
  Ok <$> jet_seeds_of self E n !! j = Some (object_seed self E j).
Proof.
  intros Hj. unfold jet_seeds_of.
  rewrite list_lookup_fmap, local_indices_lookup by done.
  simpl. by rewrite object_seed_digest.
Qed.

(** C5: for every event with final seed [E] and every jet at 0-based local
    index [j], the jet's seed is
    [digest_to_u64(E + prime_at(E mod table_len) * (j + prime_at(50)), 16)
    mod 2^64], sum and product wrapping modulo 2^64; the jet seed producer
    returns the events with these seeds attached to the Jet collection. *)
Theorem jet_seed_formula (self : Producer) (events r : Events)
    (seeds : list Z) (num : list nat) (fs : gmap string (list (list Z))) :
  deterministic_event_seeds self events = Ok r ->
  r !! "deterministic_seed" = Some (Flat seeds) ->
  events !! "Jet" = Some (Collection num fs) ->
  50 < n_primes self ->
  exists column,
    deterministic_jet_seeds self events
    = Ok (<["Jet" := Collection num (<["deterministic_seed" := column]> fs)]> r)
    /\ forall k E n j,
         seeds !! k = Some E -> num !! k = Some n -> (j < n)%nat ->
         exists row,
           column !! k = Some row
           /\ Ok <$> row !! j = Some (object_seed self E j).
Proof.
  intros HE Hds Hjet Hn. exists (zip_with (jet_seeds_of self) seeds num). split.
  - by apply jet_seeds_closed_form.
  - intros k E n j HkE Hkn Hj. exists (jet_seeds_of self E n). split.
    + rewrite lookup_zip_with, HkE. simpl. by rewrite Hkn.
    + by apply jet_seeds_of_lookup.
Qed.

Lemma jet_seed_formula_witness :
  exists column,
    deterministic_jet_seeds (sample_producer true) two_events
    = Ok (<["Jet" := Collection [0%nat; 2%nat]
                       (<["deterministic_seed" := column]>
                          {[ "nConstituents" := [[]; [5; 9]] ]})]>
            (seeded (sample_producer true) two_events))
    /\ forall k E n j,
         [17710135151601907127; 10966357786593596160] !! k = Some E ->
         [0%nat; 2%nat] !! k = Some n -> (j < n)%nat ->
         exists row,
           column !! k = Some row
           /\ Ok <$> row !! j = Some (object_seed (sample_producer true) E j).
Proof.
  apply (jet_seed_formula (sample_producer true) two_events
           (seeded (sample_producer true) two_events)
           [17710135151601907127; 10966357786593596160] [0%nat; 2%nat]
           {[ "nConstituents" := [[]; [5; 9]] ]}).
  - vm_compute. reflexivity.
  - vm_compute. reflexivity.
  - vm_compute. reflexivity.
  - reflexivity.
Defined.

(** ** Rows of a chunk *)

Lemma rectangular_lookup (n : nat) (events : Events) k a :
  rectangular n events -> events !! k = Some a -> has_rows n a.
Proof. intros H Hk. exact (H k a Hk). Qed.

Lemma Route_apply_rows (n : nat) (events : Events) route a :
  rectangular n events -> Route_apply route events = Some a -> has_rows n a.
Proof.
  intros Hrect H. destruct route as [|x [|y [|z route]]]; simpl in H; try discriminate.
  - by eapply rectangular_lookup.
  - destruct (events !! x) as [[v|v|fs|num fs]|] eqn:Hx; try discriminate;
      pose proof (rectangular_lookup n events x _ Hrect Hx) as Hrows; simpl in Hrows.
    + destruct (fs !! y) as [v|] eqn:Hy; [|discriminate]. inversion H; subst a.
      simpl. exact (Hrows y v Hy).
    + destruct Hrows as [Hnum Hfs].
      destruct (fs !! y) as [v|] eqn:Hy; [|discriminate]. inversion H; subst a.
      simpl. rewrite <- Hnum, <- (Hfs y v Hy). by rewrite length_map.
Qed.

Lemma flat_column_length (n : nat) (events : Events) name v :
  rectangular n events -> events !! name = Some (Flat v) ->
  length (flat_column events name) = n.
Proof.
  intros Hrect H. unfold flat_column. rewrite H.
  exact (rectangular_lookup n events name _ Hrect H).
Qed.

Lemma bootstrap_input_length (self : Producer) (n : nat) (events : Events) :
  well_shaped events = true -> rectangular n events ->
  length (bootstrap_input self events) = n.
Proof.
  intros Hws Hrect.
  destruct (well_shaped_event events Hws) as [ev Hev].
  destruct (well_shaped_run events Hws) as [rn Hrn].
  destruct (well_shaped_lumi events Hws) as [lb Hlb].
  unfold bootstrap_input. rewrite !length_zip_with, !length_map.
  rewrite (flat_column_length n events "event" ev),
          (flat_column_length n events "run" rn),
          (flat_column_length n events "luminosityBlock" lb) by done.
  lia.
Qed.

Lemma fold_zip_length {A B} (f : B -> Z -> A -> Z) (n : nat) (l : list (B * list A)) :
  Forall (fun e => length e.2 = n) l ->
  forall seed, length seed = n ->
  length (fold_left (fun seed e => zip_with (fun s v => f e.1 s v) seed e.2) l seed) = n.
Proof.
  induction 1 as [|e l He _ IH]; intros seed Hseed; [done|].
  simpl. apply IH. rewrite length_zip_with. lia.
Qed.

Lemma enumerate_lengths {A} (n : nat) (l : list (list A)) start :
  Forall (fun v => length v = n) l ->
  Forall (fun e : Z * list A => length e.2 = n) (enumerate l start).
Proof.
  intros H. revert start. induction H as [|v l Hv _ IH]; intros start; simpl.
  - apply Forall_nil_2.
  - apply Forall_cons. split; [done|apply IH].
Qed.

Lemma global_features_lengths (self : Producer) (n : nat) (events : Events) :
  rectangular n events ->
  Forall (fun v => length v = n) (global_features self events).
Proof.
  intros Hrect. unfold global_features. apply Forall_app. split.
  - destruct (apply_field events "Pileup.nPU") as [[v| | |]|] eqn:E;
      try apply Forall_nil_2.
    apply Forall_singleton. exact (Route_apply_rows n events _ _ Hrect E).
  - apply Forall_forall. intros v Hv.
    apply list_elem_of_omap in Hv as [c [_ Hc]]. unfold collection_count in Hc.
    destruct (events !! c) as [[| | |num fs]|] eqn:Hec; try discriminate.
    inversion Hc; subst v. rewrite length_map.
    by destruct (rectangular_lookup n events c _ Hrect Hec).
Qed.

Lemma object_columns_lengths (n : nat) (events : Events) :
  rectangular n events ->
  Forall (fun e => length e.2 = n) (object_columns events).
Proof.
  intros Hrect. unfold object_columns. apply Forall_forall. intros [i v] Hv.
  apply list_elem_of_omap in Hv as [[i' f] [_ Hf]]. cbn [fst snd] in Hf.
  destruct (apply_field events f) as [[| v' | |]|] eqn:E; try discriminate.
  inversion Hf; subst. exact (Route_apply_rows n events _ _ Hrect E).
Qed.

Lemma global_pass_spec_length (self : Producer) (n : nat) features seed :
  Forall (fun v => length v = n) features -> length seed = n ->
  length (global_pass_spec self features seed) = n.
Proof.
  intros Hf Hs. unfold global_pass_spec.
  apply (fold_zip_length (fun i s v => global_update self i v s) n); [|done].
  by apply enumerate_lengths.
Qed.

Lemma object_pass_spec_length (self : Producer) (n : nat) columns seed :
  Forall (fun e => length e.2 = n) columns -> length seed = n ->
  length (object_pass_spec self columns seed) = n.
Proof.
  intros Hf Hs. unfold object_pass_spec.
  by apply (fold_zip_length (fun i s vs => object_update self i vs s) n).
Qed.

Lemma event_seeds_spec_length (self : Producer) (n : nat) (events : Events) :
  well_shaped events = true -> rectangular n events ->
  length (event_seeds_spec self events) = n.
Proof.
  intros Hws Hrect. unfold event_seeds_spec. rewrite length_map.
  apply object_pass_spec_length; [by apply object_columns_lengths|].
  apply global_pass_spec_length; [by apply global_features_lengths|].
  rewrite length_map. by apply bootstrap_input_length.
Qed.

Lemma event_seeds_spec_range (self : Producer) (events : Events) :
  Forall (fun s => 0 <= s < 2 ^ 64) (event_seeds_spec self events).
Proof.
  unfold event_seeds_spec. apply Forall_fmap, Forall_forall.
  intros x _. apply seed_digest_16_range.
Qed.

(** ** What the producers add to the events *)

Lemma with_counts_keys (self : Producer) (events : Events) :
  well_shaped events = true ->
  counted events (collections self)
  = Ok (map (fun e => (e.1, Flat e.2)) (omap (count_feature events) (collections self)))
  /\ map fst (map (fun e : string * list Z => (e.1, Flat e.2))
                  (omap (count_feature events) (collections self)))
     = count_names self events.
Proof.
  intros Hws.
  assert (Hcols : forall c, c ∈ collections self ->
                            collection_or_absent (events !! c) = true).
  { intros c Hc. apply well_shaped_collection; [done|by apply (collections_sub self)]. }
  split; [by apply counted_well_shaped|].
  rewrite map_map. cbn [fst]. unfold count_names.
  apply count_feature_names; [apply collections_plain|done].
Qed.

Lemma with_counts_lookup_count (self : Producer) (events : Events) c counts :
  well_shaped events = true ->
  c ∈ collections self -> collection_count events c = Some counts ->
  with_counts self events !! ("n" +:+ c) = Some (Flat counts).
Proof.
  intros Hws Hc Hcount. destruct (with_counts_keys self events Hws) as [Hkvs _].
  unfold with_counts. apply insert_all_lookup.
  - eapply counted_keys_NoDup; [apply collections_NoDup|exact Hkvs].
  - apply list_elem_of_fmap. exists ("n" +:+ c, counts). split; [done|].
    apply list_elem_of_omap. exists c. split; [done|].
    unfold count_feature. by rewrite Hcount.
Qed.

Lemma with_counts_lookup_other (self : Producer) (events : Events) k :
  well_shaped events = true ->
  k ∉ count_names self events -> with_counts self events !! k = events !! k.
Proof.
  intros Hws Hk. destruct (with_counts_keys self events Hws) as [_ Hnames].
  unfold with_counts. apply insert_all_lookup_ne. by rewrite Hnames.
Qed.

Lemma jet_seeds_of_length (self : Producer) (E : Z) (n : nat) :
  length (jet_seeds_of self E n) = n.
Proof. unfold jet_seeds_of, local_indices. by rewrite !length_map, length_seq. Qed.

Lemma jet_column_counts (self : Producer) (seeds : list Z) (num : list nat) :
  length seeds = length num ->
  map length (zip_with (jet_seeds_of self) seeds num) = num.
Proof.
  revert num. induction seeds as [|e seeds IH]; intros [|n num] H; try done.
  cbn [zip_with map]. rewrite jet_seeds_of_length. f_equal. apply IH.
  simpl in H. lia.
Qed.

Lemma jet_column_range (self : Producer) (seeds : list Z) (num : list nat) :
  Forall (Forall (fun s => 0 <= s < 2 ^ 64)) (zip_with (jet_seeds_of self) seeds num).
Proof.
  revert num. induction seeds as [|e seeds IH]; intros [|n num];
    try apply Forall_nil_2.
  cbn [zip_with]. apply Forall_cons. split; [|apply IH].
  unfold jet_seeds_of. apply Forall_fmap, Forall_forall.
  intros j _. apply seed_digest_16_range.
Qed.

(** C9, as amended: on a chunk of [n] events that meets the contract the
    event seed producer returns the events with one unsigned 64-bit seed
    per event in [deterministic_seed] and, for every counted collection of
    the chunk, the unsigned 64-bit count column [n<collection>]; every other
    field is as it was.  The jet seed producer changes beyond that only the
    Jet collection, to which it adds one unsigned 64-bit seed per jet in
    [deterministic_seed]. *)
Theorem seed_producers_frame (self : Producer) (n : nat) (events : Events) :
  well_shaped events = true -> rectangular n events -> 50 < n_primes self ->
  exists r seeds,
    deterministic_event_seeds self events = Ok r
    /\ r !! "deterministic_seed" = Some (Flat seeds)
    /\ length seeds = n
    /\ Forall (fun s => 0 <= s < 2 ^ 64) seeds
    /\ (forall c counts,
          c ∈ collections self -> collection_count events c = Some counts ->
          r !! ("n" +:+ c) = Some (Flat counts))
    /\ (forall k, k <> "deterministic_seed" -> k ∉ count_names self events ->
                  r !! k = events !! k)
    /\ (forall num fs,
          events !! "Jet" = Some (Collection num fs) ->
          exists column,
            deterministic_jet_seeds self events
            = Ok (<["Jet" := Collection num (<["deterministic_seed" := column]> fs)]> r)
            /\ map length column = num
            /\ Forall (Forall (fun s => 0 <= s < 2 ^ 64)) column).
Proof.
  intros Hws Hrect Hn.
  pose proof (event_seeds_well_shaped self events Hws ltac:(lia)) as HE.
  set (seeds := event_seeds_spec self events) in *.
  set (r := <["deterministic_seed" := Flat seeds]> (with_counts self events)) in *.
  assert (Hds : r !! "deterministic_seed" = Some (Flat seeds)) by apply lookup_insert_eq.
  assert (Hlen : length seeds = n) by by apply event_seeds_spec_length.
  exists r, seeds. repeat split; try done.
  - apply event_seeds_spec_range.
  - intros c counts Hc Hcount. unfold r. rewrite lookup_insert_ne.
    + by apply with_counts_lookup_count.
    + pose proof (collections_plain self) as Hplain. rewrite Forall_forall in Hplain.
      destruct (Hplain c Hc) as (_ & _ & _ & _ & Hd). congruence.
  - intros k Hk Hnames. unfold r. rewrite lookup_insert_ne by done.
    by apply with_counts_lookup_other.
  - intros num fs Hjet. exists (zip_with (jet_seeds_of self) seeds num).
    split; [by apply (jet_seeds_closed_form self events r seeds)|]. split.
    + apply jet_column_counts. rewrite Hlen.
      by destruct (rectangular_lookup n events "Jet" _ Hrect Hjet).
    + apply jet_column_range.
Qed.

Lemma seed_producers_frame_witness :
  exists r seeds,
    deterministic_event_seeds (sample_producer true) two_events = Ok r
    /\ r !! "deterministic_seed" = Some (Flat seeds)
    /\ length seeds = 2%nat
    /\ Forall (fun s => 0 <= s < 2 ^ 64) seeds
    /\ (forall c counts,
          c ∈ collections (sample_producer true) ->
          collection_count two_events c = Some counts ->
          r !! ("n" +:+ c) = Some (Flat counts))
    /\ (forall k, k <> "deterministic_seed" ->
                  k ∉ count_names (sample_producer true) two_events ->
                  r !! k = two_events !! k)
    /\ (forall num fs,
          two_events !! "Jet" = Some (Collection num fs) ->
          exists column,
            deterministic_jet_seeds (sample_producer true) two_events
            = Ok (<["Jet" := Collection num (<["deterministic_seed" := column]> fs)]> r)
            /\ map length column = num
            /\ Forall (Forall (fun s => 0 <= s < 2 ^ 64)) column).
Proof.
  apply (seed_producers_frame (sample_producer true) 2 two_events).
  - vm_compute. reflexivity.
  - apply (bool_decide_unpack _). vm_compute. exact I.
  - reflexivity.
Defined.

(** C9, as stated, fails: besides [deterministic_seed] the event seed
    producer leaves the count column of every collection of the chunk in
    the events it returns; here nJet is new. *)
Lemma count_columns_are_added :
  event_without_jets !! "nJet" = None
  /\ "nJet" <> "deterministic_seed"
  /\ exists r,
       deterministic_event_seeds (sample_producer false) event_without_jets = Ok r
       /\ r !! "nJet" = Some (Flat [0]).
Proof.
  split; [reflexivity|]. split; [discriminate|].
  exists (seeded (sample_producer false) event_without_jets).
  split; vm_compute; reflexivity.
Qed.

(** ** Selecting events commutes with the producers *)

Lemma take_rows_cons {A} (i : nat) (index : list nat) (l : list A) :
  take_rows (i :: index) l
  = match l !! i with
    | Some x => x :: take_rows index l
    | None => take_rows index l
    end.
Proof. reflexivity. Qed.

Lemma take_rows_nil {A} (index : list nat) : take_rows index (@nil A) = [].
Proof. induction index as [|i index IH]; [done|]. by rewrite take_rows_cons. Qed.

Lemma take_rows_map {A B} (f : A -> B) (index : list nat) (l : list A) :
  take_rows index (map f l) = map f (take_rows index l).
Proof.
  induction index as [|i index IH]; [done|].
  rewrite !take_rows_cons, list_lookup_fmap.
  destruct (l !! i); simpl; by rewrite IH.
Qed.

Lemma take_rows_zip_with {A B C} (f : A -> B -> C) (index : list nat)
    (a : list A) (b : list B) :
  length a = length b ->
  take_rows index (zip_with f a b)
  = zip_with f (take_rows index a) (take_rows index b).
Proof.
  intros Hlen. induction index as [|i index IH]; [done|].
  rewrite !take_rows_cons, lookup_zip_with.
  destruct (a !! i) as [x|] eqn:Ha; simpl.
  - destruct (lookup_lt_is_Some_2 b i) as [y Hy].
    { rewrite <- Hlen. by eapply lookup_lt_Some. }
    rewrite Hy. simpl. by rewrite IH.
  - rewrite (lookup_ge_None_2 b i); [done|].
    rewrite <- Hlen. by apply lookup_ge_None_1.
Qed.

Lemma take_rows_length {A B} (index : list nat) (a : list A) (b : list B) :
  length a = length b -> length (take_rows index a) = length (take_rows index b).
Proof.
  intros Hlen. induction index as [|i index IH]; [done|].
  rewrite !take_rows_cons.
  destruct (a !! i) as [x|] eqn:Ha.
  - destruct (lookup_lt_is_Some_2 b i) as [y Hy].
    { rewrite <- Hlen. by eapply lookup_lt_Some. }
    rewrite Hy. simpl. by rewrite IH.
  - rewrite (lookup_ge_None_2 b i); [done|].
    rewrite <- Hlen. by apply lookup_ge_None_1.
Qed.

Lemma take_events_lookup (index : list nat) (events : Events) k :
  take_events index events !! k = take_array index <$> events !! k.
Proof. apply lookup_fmap. Qed.

Lemma take_events_Route_apply (index : list nat) (events : Events) route :
  Route_apply route (take_events index events)
  = take_array index <$> Route_apply route events.
Proof.
  destruct route as [|a [|b [|c route]]]; simpl; try done.
  - apply take_events_lookup.
  - rewrite take_events_lookup.
    destruct (events !! a) as [[v|v|fs|num fs]|]; simpl; try done.
    + rewrite lookup_fmap. by destruct (fs !! b).
    + rewrite lookup_fmap. by destruct (fs !! b).
Qed.

Lemma take_events_insert (index : list nat) (events : Events) k (a : array) :
  take_events index (<[k := a]> events)
  = <[k := take_array index a]> (take_events index events).
Proof. apply fmap_insert. Qed.

Lemma take_events_well_shaped (index : list nat) (events : Events) :
  well_shaped (take_events index events) = well_shaped events.
Proof.
  unfold well_shaped. rewrite !take_events_lookup.
  f_equal; [f_equal; [f_equal; [f_equal|]|]|].
  - by destruct (events !! "event") as [[]|].
  - by destruct (events !! "run") as [[]|].
  - by destruct (events !! "luminosityBlock") as [[]|].
  - by destruct (events !! "Pileup") as [[]|].
  - induction all_collections as [|c cols IH]; [done|].
    simpl. rewrite take_events_lookup, IH.
    by destruct (events !! c) as [[]|].
Qed.

Lemma take_flat_column (index : list nat) (events : Events) name :
  flat_column (take_events index events) name
  = take_rows index (flat_column events name).
Proof.
  unfold flat_column. rewrite take_events_lookup.
  destruct (events !! name) as [[]|]; simpl; by rewrite ?take_rows_nil.
Qed.

Lemma take_bootstrap_input (self : Producer) (n : nat) (index : list nat)
    (events : Events) :
  well_shaped events = true -> rectangular n events ->
  bootstrap_input self (take_events index events)
  = take_rows index (bootstrap_input self events).
Proof.
  intros Hws Hrect.
  destruct (well_shaped_event events Hws) as [ev Hev].
  destruct (well_shaped_run events Hws) as [rn Hrn].
  destruct (well_shaped_lumi events Hws) as [lb Hlb].
  pose proof (flat_column_length n events "event" ev Hrect Hev) as Le.
  pose proof (flat_column_length n events "run" rn Hrect Hrn) as Lr.
  pose proof (flat_column_length n events "luminosityBlock" lb Hrect Hlb) as Ll.
  unfold bootstrap_input. rewrite !take_flat_column.
  rewrite !take_rows_zip_with, !take_rows_map; [done| |].
  - rewrite !length_map. lia.
  - rewrite length_zip_with, !length_map. lia.
Qed.

Lemma take_collection_count (index : list nat) (events : Events) c :
  collection_count (take_events index events) c
  = take_rows index <$> collection_count events c.
Proof.
  unfold collection_count. rewrite take_events_lookup.
  destruct (events !! c) as [[]|]; simpl; try done.
  by rewrite take_rows_map.
Qed.

Lemma take_global_features (self : Producer) (index : list nat) (events : Events) :
  global_features self (take_events index events)
  = map (take_rows index) (global_features self events).
Proof.
  unfold global_features, apply_field. rewrite take_events_Route_apply, map_app.
  f_equal.
  - by destruct (Route_apply (Route "Pileup.nPU") events) as [[]|].
  - induction (collections self) as [|c cols IH]; [done|].
    simpl omap. rewrite take_collection_count.
    destruct (collection_count events c); simpl; [f_equal|]; exact IH.
Qed.

Lemma take_apply_field (index : list nat) (events : Events) f :
  apply_field (take_events index events) f = take_array index <$> apply_field events f.
Proof. apply take_events_Route_apply. Qed.

Lemma take_object_columns (index : list nat) (events : Events) :
  object_columns (take_events index events)
  = map (fun e => (e.1, take_rows index e.2)) (object_columns events).
Proof.
  unfold object_columns.
  induction (enumerate object_fields value_offset) as [|[i f] l IH]; [done|].
  simpl omap. cbn [fst snd]. rewrite take_apply_field.
  destruct (apply_field events f) as [[]|]; simpl; try exact IH.
  f_equal. exact IH.
Qed.

Lemma take_fold_zip {A B} (f : B -> Z -> A -> Z) (n : nat) (index : list nat)
    (l : list (B * list A)) :
  Forall (fun e => length e.2 = n) l ->
  forall seed, length seed = n ->
  fold_left (fun seed e => zip_with (fun s v => f e.1 s v) seed e.2)
            (map (fun e => (e.1, take_rows index e.2)) l) (take_rows index seed)
  = take_rows index
      (fold_left (fun seed e => zip_with (fun s v => f e.1 s v) seed e.2) l seed).
Proof.
  induction 1 as [|e l He _ IH]; intros seed Hseed; [done|].
  simpl. rewrite <- IH by (rewrite length_zip_with; lia).
  f_equal. rewrite take_rows_zip_with by lia. done.
Qed.

Lemma enumerate_map {A B} (g : A -> B) (l : list A) start :
  enumerate (map g l) start = map (fun e => (e.1, g e.2)) (enumerate l start).
Proof.
  revert start. induction l as [|x l IH]; intros start; [done|].
  simpl. by rewrite IH.
Qed.

Lemma take_global_pass_spec (self : Producer) (n : nat) (index : list nat)
    features seed :
  Forall (fun v => length v = n) features -> length seed = n ->
  global_pass_spec self (map (take_rows index) features) (take_rows index seed)
  = take_rows index (global_pass_spec self features seed).
Proof.
  intros Hf Hs. unfold global_pass_spec. rewrite enumerate_map.
  apply (take_fold_zip (fun i s v => global_update self i v s) n); [|done].
  by apply enumerate_lengths.
Qed.

Lemma take_object_pass_spec (self : Producer) (n : nat) (index : list nat)
    columns seed :
  Forall (fun e => length e.2 = n) columns -> length seed = n ->
  object_pass_spec self (map (fun e => (e.1, take_rows index e.2)) columns)
                   (take_rows index seed)
  = take_rows index (object_pass_spec self columns seed).
Proof.
  intros Hf Hs. unfold object_pass_spec.
  by apply (take_fold_zip (fun i s vs => object_update self i vs s) n).
Qed.

Lemma take_event_seeds_spec (self : Producer) (n : nat) (index : list nat)
    (events : Events) :
  well_shaped events = true -> rectangular n events ->
  event_seeds_spec self (take_events index events)
  = take_rows index (event_seeds_spec self events).
Proof.
  intros Hws Hrect. unfold event_seeds_spec.
  rewrite take_object_columns, take_global_features.
  rewrite (take_bootstrap_input self n) by done.
  rewrite <- take_rows_map.
  rewrite (take_global_pass_spec self n).
  2:{ by apply global_features_lengths. }
  2:{ rewrite length_map. by apply bootstrap_input_length. }
  rewrite (take_object_pass_spec self n).
  2:{ by apply object_columns_lengths. }
  2:{ apply global_pass_spec_length; [by apply global_features_lengths|].
      rewrite length_map. by apply bootstrap_input_length. }
  by rewrite take_rows_map.
Qed.

Lemma take_insert_all (index : list nat) (events : Events) kvs :
  insert_all (map (fun kv => (kv.1, take_array index kv.2)) kvs)
             (take_events index events)
  = take_events index (insert_all kvs events).
Proof.
  revert events. induction kvs as [|[k a] kvs IH]; intros events; [done|].
  simpl map. rewrite !insert_all_cons. cbn [fst snd].
  by rewrite <- take_events_insert, IH.
Qed.

Lemma take_count_feature (index : list nat) (events : Events) c :
  count_feature (take_events index events) c
  = (fun e => (e.1, take_rows index e.2)) <$> count_feature events c.
Proof.
  unfold count_feature. rewrite take_collection_count.
  by destruct (collection_count events c).
Qed.

Lemma take_count_features (index : list nat) (events : Events) cols :
  omap (count_feature (take_events index events)) cols
  = map (fun e => (e.1, take_rows index e.2)) (omap (count_feature events) cols).
Proof.
  induction cols as [|c cols IH]; [done|].
  simpl omap. rewrite take_count_feature.
  destruct (count_feature events c); simpl; [f_equal|]; exact IH.
Qed.

Lemma take_with_counts (self : Producer) (index : list nat) (events : Events) :
  with_counts self (take_events index events)
  = take_events index (with_counts self events).
Proof.
  unfold with_counts. rewrite <- take_insert_all. f_equal.
  rewrite take_count_features, !map_map. reflexivity.
Qed.

Lemma take_event_seeds (self : Producer) (n : nat) (index : list nat)
    (events : Events) :
  well_shaped events = true -> rectangular n events -> 7 < n_primes self ->
  deterministic_event_seeds self (take_events index events)
  = take_events index <$> deterministic_event_seeds self events.
Proof.
  intros Hws Hrect Hn.
  rewrite (event_seeds_well_shaped self events) by done.
  rewrite (event_seeds_well_shaped self (take_events index events))
    by (try done; by rewrite take_events_well_shaped).
  cbn [fmap result_fmap]. f_equal.
  rewrite take_events_insert. cbn [take_array].
  by rewrite take_with_counts, (take_event_seeds_spec self n).
Qed.

Lemma take_jet_rows (self : Producer) (index : list nat) (seeds : list Z)
    (num : list nat) :
  length seeds = length num ->
  zip_with (jet_seeds_of self) (take_rows index seeds) (take_rows index num)
  = take_rows index (zip_with (jet_seeds_of self) seeds num).
Proof. intros H. by rewrite take_rows_zip_with. Qed.

Lemma take_jet_seeds (self : Producer) (n : nat) (index : list nat)
    (events : Events) :
  well_shaped events = true -> rectangular n events -> 50 < n_primes self ->
  deterministic_jet_seeds self (take_events index events)
  = take_events index <$> deterministic_jet_seeds self events.
Proof.
  intros Hws Hrect Hn.
  pose proof (event_seeds_well_shaped self events Hws ltac:(lia)) as HE.
  pose proof (take_event_seeds self n index events Hws Hrect ltac:(lia)) as HT.
  rewrite HE in HT. cbn [fmap result_fmap] in HT.
  set (seeds := event_seeds_spec self events) in *.
  set (r := <["deterministic_seed" := Flat seeds]> (with_counts self events)) in *.
  assert (Hds : r !! "deterministic_seed" = Some (Flat seeds)) by apply lookup_insert_eq.
  assert (Hlen : length seeds = n) by by apply event_seeds_spec_length.
  assert (Hjet : collection_or_absent (events !! "Jet") = true).
  { apply well_shaped_collection; [done|].
    unfold all_collections. rewrite !elem_of_cons. tauto. }
  destruct (events !! "Jet") as [[| | |num fs]|] eqn:Ej; try discriminate Hjet.
  - rewrite (jet_seeds_closed_form self events r seeds num fs) by done.
    rewrite (jet_seeds_closed_form self (take_events index events)
               (take_events index r) (take_rows index seeds)
               (take_rows index num) (take_rows index <$> fs)); try done.
    + cbn [fmap result_fmap]. f_equal.
      rewrite take_events_insert. cbn [take_array]. rewrite fmap_insert.
      rewrite take_jet_rows; [done|].
      rewrite Hlen. by destruct (rectangular_lookup n events "Jet" _ Hrect Ej).
    + by rewrite take_events_lookup, Hds.
    + by rewrite take_events_lookup, Ej.
  - rewrite (jet_seeds_without_jets self events) by done.
    rewrite (jet_seeds_without_jets self (take_events index events))
      by by rewrite take_events_lookup, Ej.
    by rewrite HE, HT.
Qed.

(** C6: the seeds of an event and of its jets depend on that event alone.
    On a chunk of [n] events that meets the contract, running the producers
    on any selection of its events (a permutation of all of them, a slice,
    any list of indices below [n]) gives the same events as selecting from
    the outcome of the whole chunk: every seed and every count is that of
    the same event in the whole chunk. *)
Theorem seeds_commute_with_selection (self : Producer) (n : nat)
    (events : Events) (index : list nat) :
  well_shaped events = true -> rectangular n events -> 50 < n_primes self ->
  Forall (fun i => (i < n)%nat) index ->
  deterministic_event_seeds self (take_events index events)
  = take_events index <$> deterministic_event_seeds self events
  /\ deterministic_jet_seeds self (take_events index events)
     = take_events index <$> deterministic_jet_seeds self events
  /\ exists r, deterministic_event_seeds self events = Ok r.
Proof.
  intros Hws Hrect Hn _. split; [|split].
  - apply (take_event_seeds self n); [done|done|lia].
  - by apply (take_jet_seeds self n).
  - eexists. apply event_seeds_well_shaped; [done|lia].
Qed.

Lemma seeds_commute_with_selection_witness :
  deterministic_event_seeds (sample_producer true) (take_events [1; 0]%nat two_events)
  = take_events [1; 0]%nat <$> deterministic_event_seeds (sample_producer true) two_events
  /\ deterministic_jet_seeds (sample_producer true) (take_events [1; 0]%nat two_events)
     = take_events [1; 0]%nat <$> deterministic_jet_seeds (sample_producer true) two_events
  /\ exists r, deterministic_event_seeds (sample_producer true) two_events = Ok r.
Proof.
  apply (seeds_commute_with_selection (sample_producer true) 2 two_events [1; 0]%nat).
  - vm_compute. reflexivity.
  - apply (bool_decide_unpack _). vm_compute. exact I.
  - reflexivity.
  - apply Forall_cons. split; [lia|]. apply Forall_cons. split; [lia|].
    apply Forall_nil_2.
Defined.

(** * Further properties of the producers *)

(** ** [create_seed]: range and edge cases *)

(** X1: for one to sixteen hex characters the vectorised [create_seed]
    never raises, and its value is below [16 ^ n_hex], hence an unsigned
    64-bit number; the bootstrap seeds (fourteen characters) are below
    2^56. *)
Theorem create_seed_fits_uint64 (val : Z) (n : nat) :
  (1 <= n <= 16)%nat ->
  exists v, create_seed_u64 (Z.of_nat n) val = Ok v
            /\ 0 <= v < 16 ^ Z.of_nat n /\ 16 ^ Z.of_nat n <= 2 ^ 64.
Proof.
  intros Hn. destruct (create_seed_total val n) as [v [Hv Hb]]; [lia|].
  assert (H16 : 16 ^ Z.of_nat n <= 2 ^ 64).
  { change (2 ^ 64) with (16 ^ 16). apply Z.pow_le_mono_r; lia. }
  exists v. unfold create_seed_u64. rewrite Hv, bind_Ok_l.
  destruct (Z.ltb_spec v (2 ^ 64)); [done|lia].
Qed.

Lemma create_seed_fits_uint64_witness :
  exists v, create_seed_u64 (Z.of_nat 14) 12345 = Ok v
            /\ 0 <= v < 16 ^ Z.of_nat 14 /\ 16 ^ Z.of_nat 14 <= 2 ^ 64.
Proof. apply (create_seed_fits_uint64 12345 14). lia. Defined.

Lemma take_all {A} (n : nat) (l : list A) : (length l <= n)%nat -> take n l = l.
Proof. intros H. by apply take_ge. Qed.

(** X2: with [n_hex = 0] the slice is empty and [int] raises [ValueError]
    whatever the value; with sixty-four or more characters the slice is the
    whole digest reversed, so all such [n_hex] give the same number. *)
Theorem create_seed_edge_cases (val : Z) :
  create_seed val 0 = Raise ValueError
  /\ forall n : nat, (64 <= n)%nat ->
       create_seed val (Z.of_nat n) = create_seed val 64.
Proof.
  split.
  - unfold create_seed. change 0 with (Z.of_nat 0).
    by rewrite py_slice_tail_reversed.
  - intros n Hn. unfold create_seed. change 64 with (Z.of_nat 64).
    rewrite !py_slice_tail_reversed.
    rewrite !take_all; [done| |]; rewrite length_reverse, hexdigest_length; lia.
Qed.

Lemma create_seed_edge_cases_witness :
  create_seed 1 0 = Raise ValueError
  /\ create_seed 1 (Z.of_nat 70) = create_seed 1 64.
Proof.
  destruct (create_seed_edge_cases 1) as [H0 H64].
  split; [exact H0|apply H64; lia].
Defined.


(** ** Errors of the event seed producer *)








(** ** The aggregate of the objects of one event *)




(** ** The seed arithmetic in unbounded integers *)









(** ** What the producers read *)

Lemma event_seeds_columns (self : Producer) (events : Events) :
  deterministic_event_seeds self events
  = (x ← seed_columns self events;
     Ok (<["deterministic_seed" := Flat x.2]> (insert_all x.1 events))).
Proof.
  rewrite event_seeds_closed_form. unfold seed_columns.
  destruct (bootstrap self events) as [s0|e]; rewrite ?bind_Ok_l, ?bind_Raise_l; [|done].
  destruct (counted events (collections self)) as [kvs|e];
    rewrite ?bind_Ok_l, ?bind_Raise_l; [|done].
  destruct (global_pass _ _ _ s0) as [s1|e]; rewrite ?bind_Ok_l, ?bind_Raise_l; [|done].
  destruct (object_pass _ _ s1) as [s2|e]; rewrite ?bind_Ok_l, ?bind_Raise_l; [|done].
  destruct (traverse _ s2) as [s3|e]; rewrite ?bind_Ok_l, ?bind_Raise_l; [|done].
  reflexivity.
Qed.

Lemma Route_apply_ext (ev1 ev2 : Events) route :
  ev1 !! route_head route = ev2 !! route_head route ->
  Route_apply route ev1 = Route_apply route ev2.
Proof.
  destruct route as [|a [|b [|c route]]]; simpl; intros H; try done.
  by rewrite H.
Qed.

Lemma insert_all_lookup_ext kvs (ev1 ev2 : Events) h :
  h ∈ map fst kvs \/ ev1 !! h = ev2 !! h ->
  insert_all kvs ev1 !! h = insert_all kvs ev2 !! h.
Proof.
  revert ev1 ev2. induction kvs as [|[k v] kvs IH]; intros ev1 ev2 H.
  - destruct H as [H|H]; [by apply elem_of_nil in H|done].
  - rewrite !insert_all_cons. apply IH. cbn [fst snd].
    destruct (decide (h ∈ map fst kvs)) as [Hin|Hnin]; [by left|right].
    destruct (decide (k = h)) as [->|Hne].
    + by rewrite !lookup_insert_eq.
    + rewrite !lookup_insert_ne by done.
      destruct H as [H|H]; [|done].
      simpl in H. apply elem_of_cons in H as [H|H]; [congruence|done].
Qed.

Lemma fields_read_collections (self : Producer) c :
  c ∈ collections self -> c ∈ fields_read self.
Proof. intros H. unfold fields_read. apply elem_of_app. by right. Qed.

Lemma seed_columns_ext (self : Producer) (ev1 ev2 : Events) :
  (forall k, k ∈ fields_read self -> ev1 !! k = ev2 !! k) ->
  seed_columns self ev1 = seed_columns self ev2.
Proof.
  intros H.
  assert (Hfix : forall k, k ∈ ["event"; "run"; "luminosityBlock"; "Pileup"] ->
                           ev1 !! k = ev2 !! k).
  { intros k Hk. apply H. unfold fields_read. apply elem_of_app. by left. }
  unfold seed_columns.
  rewrite (bootstrap_ext self ev1 ev2)
    by (apply Hfix; rewrite !elem_of_cons; tauto).
  destruct (bootstrap self ev2) as [s0|e]; rewrite ?bind_Ok_l, ?bind_Raise_l; [|done].
  rewrite (counted_ext ev1 ev2)
    by (intros c Hc; by apply H, fields_read_collections).
  destruct (counted ev2 (collections self)) as [kvs|e] eqn:Hkvs;
    rewrite ?bind_Ok_l, ?bind_Raise_l; [|done].
  assert (Hflat : flat_fields ev1 = flat_fields ev2).
  { unfold flat_fields, apply_field.
    rewrite (Route_apply_ext ev1 ev2); [done|].
    apply Hfix. change (route_head (Route "Pileup.nPU")) with "Pileup".
    rewrite !elem_of_cons. tauto. }
  rewrite Hflat.
  rewrite (global_pass_ext self (insert_all kvs ev1) (insert_all kvs ev2)).
  2:{ intros f Hf. apply Route_apply_ext, insert_all_lookup_ext.
      apply elem_of_app in Hf as [Hf|Hf].
      - right. unfold flat_fields in Hf.
        destruct (apply_field ev2 "Pileup.nPU"); [|by apply elem_of_nil in Hf].
        apply list_elem_of_singleton in Hf. subst f.
        apply Hfix. change (route_head (Route "Pileup.nPU")) with "Pileup".
        rewrite !elem_of_cons. tauto.
      - left. destruct (counted_keys_count_names _ _ _ _ Hkvs Hf) as [c [Hc ->]].
        pose proof (collections_plain self) as Hplain. rewrite Forall_forall in Hplain.
        destruct (Hplain c Hc) as (_ & Hn & _). rewrite Hn. exact Hf. }
  destruct (global_pass _ _ _ s0) as [s1|e]; rewrite ?bind_Ok_l, ?bind_Raise_l; [|done].
  rewrite (object_pass_ext self (insert_all kvs ev1) (insert_all kvs ev2)).
  2:{ intros f Hf. unfold apply_field. apply Route_apply_ext, insert_all_lookup_ext.
      right. apply H, fields_read_collections, collections_hold_object_fields.
      by apply object_fields_heads. }
  reflexivity.
Qed.

Lemma seed_column_of_outcome (self : Producer) (events : Events) :
  (deterministic_event_seeds self events ≫= fun r => getattr r "deterministic_seed")
  = (x ← seed_columns self events; Ok (Flat x.2)).
Proof.
  rewrite event_seeds_columns.
  destruct (seed_columns self events) as [[kvs seeds]|e];
    rewrite ?bind_Ok_l, ?bind_Raise_l; [|done].
  unfold getattr. cbn [fst snd]. by rewrite lookup_insert_eq.
Qed.

(** X6: the event seeds are a function of the fields read.  Two chunks
    that agree on event, run, luminosityBlock, Pileup and the counted
    collections (the generator collections counting only for simulated
    data) get the same [deterministic_seed] column, or the same error;
    whatever else the chunks hold, stored count columns and an earlier
    [deterministic_seed] included, is not looked at. *)
Theorem seeds_depend_on_fields_read (self : Producer) (ev1 ev2 : Events) :
  (forall k, k ∈ fields_read self -> ev1 !! k = ev2 !! k) ->
  (deterministic_event_seeds self ev1 ≫= fun r => getattr r "deterministic_seed")
  = (deterministic_event_seeds self ev2 ≫= fun r => getattr r "deterministic_seed").
Proof.
  intros H. rewrite !seed_column_of_outcome. by rewrite (seed_columns_ext self ev1 ev2).
Qed.

Lemma seeds_depend_on_fields_read_witness :
  (deterministic_event_seeds (sample_producer false) two_events
   ≫= fun r => getattr r "deterministic_seed")
  = (deterministic_event_seeds (sample_producer false)
       (<["nJet" := Flat [40; 41]]> (<["GenJet" := Flat [1; 2]]> two_events))
     ≫= fun r => getattr r "deterministic_seed").
Proof.
  apply (seeds_depend_on_fields_read (sample_producer false) two_events
           (<["nJet" := Flat [40; 41]]> (<["GenJet" := Flat [1; 2]]> two_events))).
  intros k Hk. unfold fields_read, collections in Hk. simpl in Hk.
  rewrite !elem_of_cons, elem_of_nil in Hk.
  destruct_or!; try done; subst k; reflexivity.
Defined.

Lemma insert_all_insert_commute kvs (events : Events) k (a : array) :
  k ∉ map fst kvs ->
  insert_all kvs (<[k := a]> events) = <[k := a]> (insert_all kvs events).
Proof.
  revert events. induction kvs as [|[k' v] kvs IH]; intros events Hk; [done|].
  simpl in Hk. rewrite not_elem_of_cons in Hk. destruct Hk as [Hne Hk].
  rewrite !insert_all_cons. cbn [fst snd].
  rewrite <- IH by done. f_equal. by apply insert_insert_ne.
Qed.

Lemma seed_columns_keys_written (self : Producer) (events : Events) kvs seeds k :
  seed_columns self events = Ok (kvs, seeds) ->
  k ∈ map fst kvs -> k ∈ fields_written self.
Proof.
  intros H Hk. unfold seed_columns in H.
  apply bind_Ok in H as [s0 [_ H]]. apply bind_Ok in H as [kvs' [Hkvs H]].
  apply bind_Ok in H as [s1 [_ H]]. apply bind_Ok in H as [s2 [_ H]].
  apply bind_Ok in H as [s3 [_ H]]. inversion H; subst.
  destruct (counted_keys_count_names _ _ _ _ Hkvs Hk) as [c [Hc ->]].
  unfold fields_written. right. apply list_elem_of_fmap. by exists c.
Qed.

Lemma event_seeds_insert_unrelated (self : Producer) (events : Events) k (a : array) :
  k ∉ fields_read self -> k ∉ fields_written self ->
  deterministic_event_seeds self (<[k := a]> events)
  = (fun r => <[k := a]> r) <$> deterministic_event_seeds self events.
Proof.
  intros Hr Hw. rewrite !event_seeds_columns.
  rewrite (seed_columns_ext self (<[k := a]> events) events).
  2:{ intros k' Hk'. apply lookup_insert_ne. congruence. }
  destruct (seed_columns self events) as [[kvs seeds]|e] eqn:Hsc;
    rewrite ?bind_Ok_l, ?bind_Raise_l; [|done].
  cbn [fmap result_fmap fst snd]. f_equal.
  rewrite insert_all_insert_commute.
  - apply insert_insert_ne. intros Heq. apply Hw. rewrite <- Heq. by left.
  - intros Hin. apply Hw. by eapply seed_columns_keys_written.
Qed.

Lemma jet_seed_column_ext (self : Producer) (r1 r2 : Events) :
  r1 !! "deterministic_seed" = r2 !! "deterministic_seed" ->
  r1 !! "Jet" = r2 !! "Jet" ->
  jet_seed_column self r1 = jet_seed_column self r2.
Proof. intros Hds Hjet. unfold jet_seed_column, getattr. by rewrite Hds, Hjet. Qed.

Lemma set_jet_seed_insert_unrelated (r : Events) k (a : array) (v : array) :
  k <> "Jet" ->
  set_ak_column (<[k := a]> r) "Jet.deterministic_seed" v
  = (fun r' => <[k := a]> r') <$> set_ak_column r "Jet.deterministic_seed" v.
Proof.
  intros Hk. unfold set_ak_column.
  change (Route "Jet.deterministic_seed") with ["Jet"; "deterministic_seed"].
  cbv beta iota. rewrite lookup_insert_ne by done.
  destruct (r !! "Jet") as [[| | fs|num fs]|]; try done; destruct v; try done;
    cbn [fmap result_fmap]; f_equal; apply insert_insert_ne; congruence.
Qed.

(** X7: columns that the producers neither read nor write pass through.
    Adding or replacing such a column before the event seed producer or the
    jet seed producer runs gives the same outcome as adding it afterwards,
    errors included; for real data this holds for the generator collections
    GenJet and GenPart as well. *)
Theorem unrelated_columns_pass_through (self : Producer) (events : Events)
    (k : string) (a : array) :
  k ∉ fields_read self -> k ∉ fields_written self ->
  deterministic_event_seeds self (<[k := a]> events)
  = (fun r => <[k := a]> r) <$> deterministic_event_seeds self events
  /\ deterministic_jet_seeds self (<[k := a]> events)
     = (fun r => <[k := a]> r) <$> deterministic_jet_seeds self events.
Proof.
  intros Hr Hw. split; [by apply event_seeds_insert_unrelated|].
  unfold deterministic_jet_seeds. rewrite event_seeds_insert_unrelated by done.
  destruct (deterministic_event_seeds self events) as [r|e];
    cbn [fmap result_fmap]; rewrite ?bind_Ok_l, ?bind_Raise_l; [|done].
  assert (Hjet : k <> "Jet").
  { intros ->. apply Hr. apply fields_read_collections, collections_hold_object_fields.
    rewrite !elem_of_cons. tauto. }
  assert (Hds : k <> "deterministic_seed").
  { intros ->. apply Hw. by left. }
  rewrite (jet_seed_column_ext self (<[k := a]> r) r)
    by (by apply lookup_insert_ne).
  destruct (jet_seed_column self r) as [col|e]; rewrite ?bind_Ok_l, ?bind_Raise_l; [|done].
  by apply set_jet_seed_insert_unrelated.
Qed.

Lemma unrelated_columns_pass_through_witness :
  deterministic_event_seeds (sample_producer false) (<["GenJet" := Flat [1; 2]]> two_events)
  = (fun r => <["GenJet" := Flat [1; 2]]> r)
      <$> deterministic_event_seeds (sample_producer false) two_events
  /\ deterministic_jet_seeds (sample_producer false) (<["GenJet" := Flat [1; 2]]> two_events)
     = (fun r => <["GenJet" := Flat [1; 2]]> r)
         <$> deterministic_jet_seeds (sample_producer false) two_events.
Proof.
  apply (unrelated_columns_pass_through (sample_producer false) two_events
           "GenJet" (Flat [1; 2])).
  - apply (bool_decide_unpack _). vm_compute. exact I.
  - apply (bool_decide_unpack _). vm_compute. exact I.
Defined.

(** ** The outcome is again a chunk that meets the contract *)

Lemma rectangular_insert (n : nat) (events : Events) k (a : array) :
  rectangular n events -> has_rows n a -> rectangular n (<[k := a]> events).
Proof. intros H Ha. by apply map_Forall_insert_2. Qed.

Lemma rectangular_insert_all (n : nat) kvs (events : Events) :
  Forall (fun kv => has_rows n kv.2) kvs ->
  rectangular n events -> rectangular n (insert_all kvs events).
Proof.
  intros H. revert events. induction H as [|[k a] kvs Ha _ IH]; intros events Hr; [done|].
  rewrite insert_all_cons. apply IH. by apply rectangular_insert.
Qed.

Lemma with_counts_rectangular (self : Producer) (n : nat) (events : Events) :
  rectangular n events -> rectangular n (with_counts self events).
Proof.
  intros Hrect. unfold with_counts. apply rectangular_insert_all; [|done].
  apply Forall_fmap, Forall_forall. intros [k v] Hin. cbn [fst snd].
  apply list_elem_of_omap in Hin as [c [_ Hc]]. unfold count_feature in Hc.
  destruct (collection_count events c) as [counts|] eqn:Hcount; [|discriminate].
  inversion Hc; subst. unfold collection_count in Hcount.
  destruct (events !! c) as [[| | |num fs]|] eqn:Hec; try discriminate.
  inversion Hcount; subst. simpl. rewrite length_map.
  by destruct (rectangular_lookup n events c _ Hrect Hec).
Qed.

Lemma well_shaped_ext (ev1 ev2 : Events) :
  (forall k, k ∈ ["event"; "run"; "luminosityBlock"; "Pileup"] ++ all_collections ->
             ev1 !! k = ev2 !! k) ->
  well_shaped ev1 = well_shaped ev2.
Proof.
  intros H. unfold well_shaped.
  rewrite (H "event"), (H "run"), (H "luminosityBlock"), (H "Pileup")
    by (apply elem_of_app; left; rewrite !elem_of_cons; tauto).
  f_equal.
  assert (Hc : forall c, c ∈ all_collections -> ev1 !! c = ev2 !! c).
  { intros c Hc. apply H. apply elem_of_app. by right. }
  revert Hc. generalize all_collections. induction l as [|c cols IH]; intros Hc; [done|].
  simpl. rewrite (Hc c) by left. f_equal. apply IH. intros c' Hc'. apply Hc. by right.
Qed.

Lemma shape_fields_not_written k :
  k ∈ ["event"; "run"; "luminosityBlock"; "Pileup"] ++ all_collections ->
  k <> "deterministic_seed" /\ no_count_name k.
Proof.
  intros Hk. apply elem_of_app in Hk as [Hk|Hk].
  - rewrite !elem_of_cons, elem_of_nil in Hk.
    destruct_or!; try done; subst k; (split; [discriminate|intros c Hc; discriminate Hc]).
  - pose proof all_collections_plain as Hplain. rewrite Forall_forall in Hplain.
    destruct (Hplain k Hk) as (_ & _ & Hn & Hd & _). by split.
Qed.

Lemma event_seeds_outcome_shape (self : Producer) (n : nat) (events : Events) :
  well_shaped events = true -> rectangular n events -> 7 < n_primes self ->
  let r := <["deterministic_seed" := Flat (event_seeds_spec self events)]>
             (with_counts self events) in
  well_shaped r = true /\ rectangular n r.
Proof.
  intros Hws Hrect Hn r. split.
  - rewrite <- Hws. apply well_shaped_ext. intros k Hk.
    destruct (shape_fields_not_written k Hk) as [Hd Hc].
    destruct (with_counts_keys self events Hws) as [Hkvs _].
    unfold r, with_counts. by eapply outputs_lookup_other.
  - apply rectangular_insert; [by apply with_counts_rectangular|].
    simpl. by apply event_seeds_spec_length.
Qed.

Lemma well_shaped_set_jet (r : Events) num fs :
  well_shaped r = true -> well_shaped (<["Jet" := Collection num fs]> r) = true.
Proof.
  unfold well_shaped, all_collections. cbn [forallb].
  rewrite lookup_insert_eq. rewrite !lookup_insert_ne by discriminate.
  rewrite !andb_true_iff. cbn [collection_or_absent]. tauto.
Qed.

(** X8: the producers keep the shape of the chunk.  On a chunk of [n]
    events that meets the contract, the events returned by the event seed
    producer, and by the jet seed producer when the chunk has jets, again
    meet the contract and have [n] rows in every column (the seeds of the
    jets listing as many entries per event as the Jet collection), so the
    producers can be run one after the other. *)
Theorem producers_keep_shape (self : Producer) (n : nat) (events : Events) :
  well_shaped events = true -> rectangular n events -> 50 < n_primes self ->
  exists r,
    deterministic_event_seeds self events = Ok r
    /\ well_shaped r = true /\ rectangular n r
    /\ (is_Some (events !! "Jet") ->
        exists r', deterministic_jet_seeds self events = Ok r'
                   /\ well_shaped r' = true /\ rectangular n r').
Proof.
  intros Hws Hrect Hn.
  pose proof (event_seeds_well_shaped self events Hws ltac:(lia)) as HE.
  destruct (event_seeds_outcome_shape self n events Hws Hrect ltac:(lia)) as [Hws' Hrect'].
  set (seeds := event_seeds_spec self events) in *.
  set (r := <["deterministic_seed" := Flat seeds]> (with_counts self events)) in *.
  exists r. repeat split; try done.
  intros [jet Hjet].
  assert (Hshape : collection_or_absent (events !! "Jet") = true).
  { apply well_shaped_collection; [done|].
    unfold all_collections. rewrite !elem_of_cons. tauto. }
  rewrite Hjet in Hshape. destruct jet as [| | |num fs]; try discriminate Hshape.
  eexists. split; [|split].
  - apply (jet_seeds_closed_form self events r seeds num fs); try done.
    apply lookup_insert_eq.
  - by apply well_shaped_set_jet.
  - destruct (rectangular_lookup n events "Jet" _ Hrect Hjet) as [Hnum Hfs].
    apply rectangular_insert; [done|]. simpl. split; [done|].
    apply map_Forall_insert_2; [|done].
    apply jet_column_counts. rewrite Hnum. by apply event_seeds_spec_length.
Qed.

Lemma producers_keep_shape_witness :
  exists r,
    deterministic_event_seeds (sample_producer true) two_events = Ok r
    /\ well_shaped r = true /\ rectangular 2 r
    /\ (is_Some (two_events !! "Jet") ->
        exists r', deterministic_jet_seeds (sample_producer true) two_events = Ok r'
                   /\ well_shaped r' = true /\ rectangular 2 r').
Proof.
  apply (producers_keep_shape (sample_producer true) 2 two_events).
  - vm_compute. reflexivity.
  - apply (bool_decide_unpack _). vm_compute. exact I.
  - reflexivity.
Defined.

(** ** The values hashed for the jets *)

Lemma jet_seed_column_digests (self : Producer) (events : Events) :
  jet_seed_column self events
  = (raw ← jet_seed_before_digest self events;
     Ok (map (map (seed_digest 16)) raw)).
Proof.
  unfold jet_seed_column, jet_seed_before_digest.
  destruct (getattr events "deterministic_seed" ≫= as_flat) as [seeds|e];
    rewrite ?bind_Ok_l, ?bind_Raise_l; [|done].
  destruct (traverse _ seeds) as [ps|e]; rewrite ?bind_Ok_l, ?bind_Raise_l; [|done].
  destruct (getattr events "Jet" ≫= ak_local_index) as [index|e];
    rewrite ?bind_Ok_l, ?bind_Raise_l; [|done].
  destruct (primes_at self 50) as [p50|e]; rewrite ?bind_Ok_l, ?bind_Raise_l; [|done].
  rewrite (traverse_map _ (seed_digest 16)).
  2:{ intros x _. apply (create_seed_u64_digest 16). lia. }
  rewrite bind_Ok_l. by rewrite unflatten_concat_map.
Qed.

Lemma jet_raw_rows (self : Producer) (seeds : list Z) (num : list nat) :
  zip_with (fun e js => map (wadd e) js) seeds
    (zip_with (fun p js => map (wmul p) js) (map (prime_at self) seeds)
       (map (fun js => values_astype_u64 (map (fun j => j + prime_at self 50) js))
            (map local_indices num)))
  = zip_with (fun E n => map (jet_raw self E) (local_indices n)) seeds num.
Proof.
  revert num. induction seeds as [|e seeds IH]; intros [|n num]; try reflexivity.
  cbn [map zip_with]. rewrite IH. f_equal.
  unfold jet_raw, values_astype_u64. rewrite !map_map. reflexivity.
Qed.

Lemma jet_seed_before_digest_closed_form (self : Producer) (r : Events) seeds num fs :
  r !! "deterministic_seed" = Some (Flat seeds) ->
  r !! "Jet" = Some (Collection num fs) ->
  50 < n_primes self ->
  jet_seed_before_digest self r
  = Ok (zip_with (fun E n => map (jet_raw self E) (local_indices n)) seeds num).
Proof.
  intros Hds Hjet Hn. unfold jet_seed_before_digest, getattr. rewrite Hds, Hjet.
  rewrite !bind_Ok_l. change (as_flat (Flat seeds)) with (Ok seeds).
  rewrite !bind_Ok_l.
  rewrite (traverse_map _ (prime_at self)).
  2:{ intros e _. apply primes_at_prime_at. lia. }
  rewrite !bind_Ok_l.
  change (ak_local_index (Collection num fs)) with (Ok (map local_indices num)).
  rewrite !bind_Ok_l, (primes_at_const self 50) by lia. rewrite !bind_Ok_l.
  f_equal. apply jet_raw_rows.
Qed.

Lemma jet_raw_exact (self : Producer) (E j : Z) :
  jet_raw self E j = u64 (E + prime_at self E * (j + prime_at self 50)).
Proof. unfold jet_raw. rewrite wmul_u64_r. unfold wmul. by rewrite wadd_u64_r. Qed.

Lemma jet_raw_inj (self : Producer) (E : Z) (n j j' : Z) :
  0 < prime_at self E -> prime_at self E * n <= 2 ^ 64 ->
  0 <= j < n -> 0 <= j' < n ->
  jet_raw self E j = jet_raw self E j' -> j = j'.
Proof.
  intros Hp Hpn Hj Hj'. rewrite !jet_raw_exact. unfold u64.
  set (p := prime_at self E) in *. set (c := prime_at self 50).
  set (M := 2 ^ 64) in *. intros Heq.
  assert (HM : 0 < M) by (unfold M; lia).
  pose proof (Z.div_mod (E + p * (j + c)) M ltac:(lia)) as Ha.
  pose proof (Z.div_mod (E + p * (j' + c)) M ltac:(lia)) as Hb.
  set (qa := (E + p * (j + c)) / M) in *. set (qb := (E + p * (j' + c)) / M) in *.
  assert (Hd : p * (j - j') = M * (qa - qb)) by lia.
  assert (Hbound : - M < p * (j - j') < M) by nia.
  assert (Hq : qa - qb = 0) by nia.
  rewrite Hq in Hd. nia.
Qed.

Lemma jet_raw_row_NoDup (self : Producer) (E : Z) (n : nat) :
  0 < prime_at self E -> prime_at self E * Z.of_nat n <= 2 ^ 64 ->
  NoDup (map (jet_raw self E) (local_indices n)).
Proof.
  intros Hp Hpn. unfold local_indices. rewrite map_map.
  apply NoDup_fmap_2_strong; [|apply NoDup_seq].
  intros j j' Hj Hj' Heq.
  apply elem_of_seq in Hj, Hj'.
  apply Nat2Z.inj. eapply (jet_raw_inj self E (Z.of_nat n)); eauto; lia.
Qed.

(** X9: within one event the values handed to the digest for the jets are
    pairwise different, provided the prime picked for the event is positive
    and its product with the number of jets does not exceed 2^64 (any table
    of ordinary primes): [E + prime * (j + primes[50])] modulo 2^64 is
    one-to-one in the local index [j].  The jet seeds are the digests of
    these values, so two jets of an event share a seed only if their
    digests coincide. *)
Theorem jet_values_distinct (self : Producer) (r : Events)
    (seeds : list Z) (num : list nat) (fs : gmap string (list (list Z))) :
  r !! "deterministic_seed" = Some (Flat seeds) ->
  r !! "Jet" = Some (Collection num fs) ->
  50 < n_primes self ->
  (forall k E n, seeds !! k = Some E -> num !! k = Some n ->
                 0 < prime_at self E /\ prime_at self E * Z.of_nat n <= 2 ^ 64) ->
  exists raw,
    jet_seed_before_digest self r = Ok raw
    /\ Forall (fun row => NoDup row) raw
    /\ jet_seed_column self r = Ok (map (map (seed_digest 16)) raw).
Proof.
  intros Hds Hjet Hn Hp. eexists. split; [|split].
  - by apply (jet_seed_before_digest_closed_form self r seeds num fs).
  - apply Forall_forall. intros row Hrow.
    apply list_elem_of_lookup in Hrow as [k Hk].
    rewrite lookup_zip_with in Hk.
    destruct (seeds !! k) as [E|] eqn:HE; [|discriminate].
    destruct (num !! k) as [n|] eqn:Hnum; [|discriminate].
    simpl in Hk. inversion Hk; subst row.
    destruct (Hp k E n HE Hnum) as [Hpos Hbound].
    by apply jet_raw_row_NoDup.
  - rewrite jet_seed_column_digests.
    by rewrite (jet_seed_before_digest_closed_form self r seeds num fs).
Qed.

Lemma jet_values_distinct_witness :
  exists raw,
    jet_seed_before_digest (sample_producer true) (seeded (sample_producer true) two_events)
    = Ok raw
    /\ Forall (fun row => NoDup row) raw
    /\ jet_seed_column (sample_producer true) (seeded (sample_producer true) two_events)
       = Ok (map (map (seed_digest 16)) raw).
Proof.
  apply (jet_values_distinct (sample_producer true)
           (seeded (sample_producer true) two_events)
           [17710135151601907127; 10966357786593596160] [0%nat; 2%nat]
           {[ "nConstituents" := [[]; [5; 9]] ]}).
  - vm_compute. reflexivity.
  - vm_compute. reflexivity.
  - reflexivity.
  - intros k E n HE Hnum. destruct k as [|[|k]]; simpl in HE, Hnum; try discriminate;
      injection HE as <-; injection Hnum as <-;
      (split; [vm_compute; reflexivity|vm_compute; discriminate]).
Defined.

(** ** Running the jet seed producer on its own outcome *)

Lemma counted_ext_num (ev1 ev2 : Events) cols :
  (forall c, c ∈ cols -> ak_num <$> ev1 !! c = ak_num <$> ev2 !! c) ->
  counted ev1 cols = counted ev2 cols.
Proof.
  induction cols as [|c cols IH]; intros H; [done|].
  simpl. rewrite IH by (intros c' Hc'; apply H; by right).
  pose proof (H c ltac:(left)) as Hc.
  destruct (ev1 !! c) as [a1|], (ev2 !! c) as [a2|]; simpl in Hc; try done.
  by inversion Hc.
Qed.

Lemma seed_columns_ext_routes (self : Producer) (ev1 ev2 : Events) :
  (forall k, k ∈ ["event"; "run"; "luminosityBlock"] -> ev1 !! k = ev2 !! k) ->
  (forall c, c ∈ collections self -> ak_num <$> ev1 !! c = ak_num <$> ev2 !! c) ->
  apply_field ev1 "Pileup.nPU" = apply_field ev2 "Pileup.nPU" ->
  (forall f, f ∈ object_fields -> apply_field ev1 f = apply_field ev2 f) ->
  seed_columns self ev1 = seed_columns self ev2.
Proof.
  intros Hfix Hnum Hpu Hobj. unfold seed_columns.
  rewrite (bootstrap_ext self ev1 ev2)
    by (apply Hfix; rewrite !elem_of_cons; tauto).
  destruct (bootstrap self ev2) as [s0|e]; rewrite ?bind_Ok_l, ?bind_Raise_l; [|done].
  rewrite (counted_ext_num ev1 ev2) by done.
  destruct (counted ev2 (collections self)) as [kvs|e] eqn:Hkvs;
    rewrite ?bind_Ok_l, ?bind_Raise_l; [|done].
  assert (Hflat : flat_fields ev1 = flat_fields ev2) by (unfold flat_fields; by rewrite Hpu).
  rewrite Hflat.
  pose proof (collections_plain self) as Hplain. rewrite Forall_forall in Hplain.
  rewrite (global_pass_ext self (insert_all kvs ev1) (insert_all kvs ev2)).
  2:{ intros f Hf. apply elem_of_app in Hf as [Hf|Hf].
      - unfold flat_fields in Hf.
        destruct (apply_field ev2 "Pileup.nPU") eqn:Epu; [|by apply elem_of_nil in Hf].
        apply list_elem_of_singleton in Hf. subst f.
        rewrite !Route_apply_insert_all_ne;
          [exact (eq_trans Hpu (eq_sym Epu))| |];
          (eapply counted_keys_not_in; [exact Hkvs|]; intros c Hc; discriminate Hc).
      - destruct (counted_keys_count_names _ _ _ _ Hkvs Hf) as [c [Hc ->]].
        destruct (Hplain c Hc) as (_ & Hn & _).
        apply Route_apply_ext, insert_all_lookup_ext. left. by rewrite Hn. }
  destruct (global_pass _ _ _ s0) as [s1|e]; rewrite ?bind_Ok_l, ?bind_Raise_l; [|done].
  rewrite (object_pass_ext self (insert_all kvs ev1) (insert_all kvs ev2)).
  2:{ intros f Hf. unfold apply_field.
      rewrite !Route_apply_insert_all_ne; [by apply Hobj| |];
        (eapply counted_keys_not_in; [exact Hkvs|]; by apply object_field_reads). }
  reflexivity.
Qed.

Lemma object_field_names f :
  f ∈ object_fields ->
  exists a b, Route f = [a; b] /\ b <> "deterministic_seed".
Proof.
  unfold object_fields. rewrite !elem_of_cons, elem_of_nil. intros H.
  destruct_or!; try done; subst f; eexists _, _; (split; [reflexivity|discriminate]).
Qed.

(** Replacing the seed column of the jets changes nothing that the event
    seed producer reads. *)
Lemma seed_columns_set_jet_seeds (self : Producer) (r : Events) num fs col :
  r !! "Jet" = Some (Collection num fs) ->
  seed_columns self (<["Jet" := Collection num (<["deterministic_seed" := col]> fs)]> r)
  = seed_columns self r.
Proof.
  intros Hjet. apply seed_columns_ext_routes.
  - intros k Hk. rewrite lookup_insert_ne; [done|].
    rewrite !elem_of_cons, elem_of_nil in Hk. destruct_or!; try done; by subst k.
  - intros c Hc. destruct (decide (c = "Jet")) as [->|Hne].
    + by rewrite lookup_insert_eq, Hjet.
    + by rewrite lookup_insert_ne.
  - unfold apply_field. apply Route_apply_insert_ne. discriminate.
  - intros f Hf. unfold apply_field.
    destruct (object_field_names f Hf) as (a & b & Hroute & Hb). rewrite Hroute.
    destruct (decide (a = "Jet")) as [->|Hne].
    + simpl. rewrite lookup_insert_eq, Hjet. by rewrite lookup_insert_ne.
    + apply Route_apply_insert_ne. simpl. congruence.
Qed.

Lemma set_jet_seed_column_Ok (r r' : Events) (col : list (list Z)) :
  set_ak_column r "Jet.deterministic_seed" (Jagged col) = Ok r' ->
  exists num fs,
    r !! "Jet" = Some (Collection num fs)
    /\ r' = <["Jet" := Collection num (<["deterministic_seed" := col]> fs)]> r.
Proof.
  unfold set_ak_column.
  change (Route "Jet.deterministic_seed") with ["Jet"; "deterministic_seed"].
  cbv beta iota. intros H.
  destruct (r !! "Jet") as [[?|?|?|num fs]|]; try discriminate.
  exists num, fs. split; [done|]. by inversion H.
Qed.

Lemma jet_seeds_idempotent (self : Producer) (events r' : Events) :
  deterministic_jet_seeds self events = Ok r' ->
  deterministic_jet_seeds self r' = Ok r'.
Proof.
  intros H. unfold deterministic_jet_seeds in H.
  apply bind_Ok in H as [r [HE H]]. apply bind_Ok in H as [col [Hcol H]].
  destruct (set_jet_seed_column_Ok r r' _ H) as (num & fs & Hjet & Hr').
  set (c := map values_astype_u64 col) in *.
  pose proof (event_seeds_idempotent self events r HE) as Hidem.
  rewrite event_seeds_columns in Hidem.
  apply bind_Ok in Hidem as [[kvs seeds] [Hsc Hidem]]. cbn [fst snd] in Hidem.
  assert (Hr : <["deterministic_seed" := Flat seeds]> (insert_all kvs r) = r) by congruence.
  assert (Hkeys : "Jet" ∉ map fst kvs).
  { intros Hin. pose proof (seed_columns_keys_written self r kvs seeds "Jet" Hsc Hin) as Hw.
    unfold fields_written in Hw. apply elem_of_cons in Hw as [Hw|Hw]; [discriminate|].
    apply list_elem_of_fmap in Hw as [x [Hx _]]. discriminate Hx. }
  assert (HE' : deterministic_event_seeds self r' = Ok r').
  { rewrite event_seeds_columns, Hr', seed_columns_set_jet_seeds, Hsc by done.
    rewrite bind_Ok_l. cbn [fst snd]. f_equal.
    rewrite insert_all_insert_commute by done.
    rewrite insert_insert_ne by discriminate. by rewrite Hr. }
  unfold deterministic_jet_seeds. rewrite HE', bind_Ok_l.
  assert (Hcol' : jet_seed_column self r' = Ok col).
  { rewrite <- Hcol. unfold jet_seed_column, getattr.
    rewrite Hr', lookup_insert_eq, Hjet.
    rewrite lookup_insert_ne by discriminate. reflexivity. }
  rewrite Hcol', bind_Ok_l.
  rewrite (set_jet_seed_column r' num (<["deterministic_seed" := c]> fs)).
  - f_equal. rewrite Hr'. rewrite insert_insert_eq. do 2 f_equal.
    apply insert_insert_eq.
  - rewrite Hr'. apply lookup_insert_eq.
Qed.

(** X11: the jet seed producer and the composite producer are idempotent:
    run on their own outcome, which already carries the count columns, the
    event seeds and the seeds of the jets, they return that outcome
    unchanged (the seed column added to the jets is none of the jet columns
    that enter the event seed). *)
Theorem jet_seeds_idempotent_on_output (self : Producer) (events : Events) :
  (deterministic_jet_seeds self events ≫= deterministic_jet_seeds self)
  = deterministic_jet_seeds self events
  /\ (deterministic_seeds self events ≫= deterministic_seeds self)
     = deterministic_seeds self events.
Proof.
  assert (H : (deterministic_jet_seeds self events ≫= deterministic_jet_seeds self)
              = deterministic_jet_seeds self events).
  { destruct (deterministic_jet_seeds self events) as [r'|e] eqn:E;
      rewrite ?bind_Ok_l, ?bind_Raise_l; [|done].
    by apply (jet_seeds_idempotent self events). }
  split; [exact H|].
  rewrite event_seeds_then_jet_seeds.
  destruct (deterministic_jet_seeds self events) as [r'|e] eqn:E;
    rewrite ?bind_Ok_l, ?bind_Raise_l; [|done].
  rewrite event_seeds_then_jet_seeds. by apply (jet_seeds_idempotent self events).
Qed.

(** ** Identifiers that share a seed *)

Lemma seed_columns_ext_bootstrap (self : Producer) (ev1 ev2 : Events) :
  bootstrap self ev1 = bootstrap self ev2 ->
  (forall c, c ∈ collections self -> ak_num <$> ev1 !! c = ak_num <$> ev2 !! c) ->
  apply_field ev1 "Pileup.nPU" = apply_field ev2 "Pileup.nPU" ->
  (forall f, f ∈ object_fields -> apply_field ev1 f = apply_field ev2 f) ->
  seed_columns self ev1 = seed_columns self ev2.
Proof.
  intros Hboot Hnum Hpu Hobj. unfold seed_columns. rewrite Hboot.
  destruct (bootstrap self ev2) as [s0|e]; rewrite ?bind_Ok_l, ?bind_Raise_l; [|done].
  rewrite (counted_ext_num ev1 ev2) by done.
  destruct (counted ev2 (collections self)) as [kvs|e] eqn:Hkvs;
    rewrite ?bind_Ok_l, ?bind_Raise_l; [|done].
  assert (Hflat : flat_fields ev1 = flat_fields ev2) by (unfold flat_fields; by rewrite Hpu).
  rewrite Hflat.
  pose proof (collections_plain self) as Hplain. rewrite Forall_forall in Hplain.
  rewrite (global_pass_ext self (insert_all kvs ev1) (insert_all kvs ev2)).
  2:{ intros f Hf. apply elem_of_app in Hf as [Hf|Hf].
      - unfold flat_fields in Hf.
        destruct (apply_field ev2 "Pileup.nPU") eqn:Epu; [|by apply elem_of_nil in Hf].
        apply list_elem_of_singleton in Hf. subst f.
        rewrite !Route_apply_insert_all_ne;
          [exact (eq_trans Hpu (eq_sym Epu))| |];
          (eapply counted_keys_not_in; [exact Hkvs|]; intros c Hc; discriminate Hc).
      - destruct (counted_keys_count_names _ _ _ _ Hkvs Hf) as [c [Hc ->]].
        destruct (Hplain c Hc) as (_ & Hn & _).
        apply Route_apply_ext, insert_all_lookup_ext. left. by rewrite Hn. }
  destruct (global_pass _ _ _ s0) as [s1|e]; rewrite ?bind_Ok_l, ?bind_Raise_l; [|done].
  rewrite (object_pass_ext self (insert_all kvs ev1) (insert_all kvs ev2)).
  2:{ intros f Hf. unfold apply_field.
      rewrite !Route_apply_insert_all_ne; [by apply Hobj| |];
        (eapply counted_keys_not_in; [exact Hkvs|]; by apply object_field_reads). }
  reflexivity.
Qed.

Lemma bootstrap_rows_shifted (p5 p3 t : Z) (a rn lb : list Z) :
  zip_with wadd
    (zip_with wadd a (map (wmul p5) (values_astype_u64 (map (fun r => r + p3 * t) rn))))
    (map (wmul p3) (values_astype_u64 lb))
  = zip_with wadd
      (zip_with wadd a (map (wmul p5) (values_astype_u64 rn)))
      (map (wmul p3) (values_astype_u64 (map (fun l => l + p5 * t) lb))).
Proof.
  revert rn lb. induction a as [|x a IH]; intros [|r rn] [|l lb]; try reflexivity.
  cbn [map zip_with values_astype_u64]. f_equal; [|apply IH].
  rewrite !wmul_u64_r. unfold wadd, wmul, u64.
  rewrite !Zplus_mod_idemp_l, !Zplus_mod_idemp_r.
  replace (x + (p5 * (r + p3 * t)) `mod` 2 ^ 64 + p3 * l)
    with ((p5 * (r + p3 * t)) `mod` 2 ^ 64 + (x + p3 * l)) by ring.
  replace (x + (p5 * r) `mod` 2 ^ 64 + p3 * (l + p5 * t))
    with ((p5 * r) `mod` 2 ^ 64 + (x + p3 * (l + p5 * t))) by ring.
  rewrite !Zplus_mod_idemp_l. f_equal. ring.
Qed.

(** X12: the seed is not one-to-one in the identifiers.  Shifting every
    run number by [t * primes[3]] gives the same event seeds as shifting
    every luminosity block by [t * primes[5]], since only
    [primes[7] * event + primes[5] * run + primes[3] * luminosityBlock]
    enters the bootstrap digest: two chunks with different (run,
    luminosityBlock) pairs and otherwise equal content get equal
    [deterministic_seed] columns. *)
Theorem shifted_identifiers_share_seeds (self : Producer) (events : Events)
    (rn lb : list Z) (t : Z) :
  7 < n_primes self ->
  events !! "run" = Some (Flat rn) ->
  events !! "luminosityBlock" = Some (Flat lb) ->
  (deterministic_event_seeds self
     (<["run" := Flat (map (fun r => r + prime_at self 3 * t) rn)]> events)
   ≫= fun r => getattr r "deterministic_seed")
  = (deterministic_event_seeds self
       (<["luminosityBlock" := Flat (map (fun l => l + prime_at self 5 * t) lb)]> events)
     ≫= fun r => getattr r "deterministic_seed").
Proof.
  intros Hn Hrun Hlumi. rewrite !seed_column_of_outcome.
  rewrite (seed_columns_ext_bootstrap self
             (<["run" := Flat (map (fun r => r + prime_at self 3 * t) rn)]> events)
             (<["luminosityBlock" := Flat (map (fun l => l + prime_at self 5 * t) lb)]> events));
    [done| | | |].
  - unfold bootstrap, getattr.
    rewrite (primes_at_const self 7), (primes_at_const self 5),
            (primes_at_const self 3) by lia.
    rewrite !lookup_insert_eq. rewrite !lookup_insert_ne by discriminate.
    rewrite Hrun, Hlumi.
    destruct (events !! "event") as [ev|]; rewrite ?bind_Ok_l, ?bind_Raise_l; [|done].
    destruct (as_flat ev) as [e|]; rewrite ?bind_Ok_l, ?bind_Raise_l; [|done].
    change (as_flat (Flat ?v)) with (Ok v). rewrite !bind_Ok_l.
    by rewrite bootstrap_rows_shifted.
  - intros c Hc. apply collections_sub in Hc. unfold all_collections in Hc.
    rewrite !elem_of_cons, elem_of_nil in Hc.
    rewrite !lookup_insert_ne; [done| |]; intros <-; destruct_or!; discriminate.
  - unfold apply_field. rewrite !Route_apply_insert_ne; [done| |]; discriminate.
  - intros f Hf. unfold apply_field.
    pose proof (object_fields_heads f Hf) as Hh.
    rewrite !Route_apply_insert_ne; [done| |];
      intros Heq; rewrite Heq in Hh; rewrite !elem_of_cons, elem_of_nil in Hh;
      destruct_or!; discriminate.
Qed.

Lemma shifted_identifiers_share_seeds_witness :
  (deterministic_event_seeds (sample_producer true)
     (<["run" := Flat (map (fun r => r + prime_at (sample_producer true) 3 * 2) [1; 2])]>
        two_events)
   ≫= fun r => getattr r "deterministic_seed")
  = (deterministic_event_seeds (sample_producer true)
       (<["luminosityBlock" :=
            Flat (map (fun l => l + prime_at (sample_producer true) 5 * 2) [1; 5])]>
          two_events)
     ≫= fun r => getattr r "deterministic_seed").
Proof.
  apply (shifted_identifiers_share_seeds (sample_producer true) two_events [1; 2] [1; 5] 2).
  - reflexivity.
  - reflexivity.
  - reflexivity.
Defined.
